(** * Smart-Parking-System: the slot manager of [main.py]

    A shallow embedding of [ParkingLotManager] (slot initialisation,
    [find_available_slot], [park_vehicle], [remove_vehicle],
    [get_parking_fee]) together with the invariants and functional
    properties of the allocation life cycle.

    Modelling conventions
    - Python [int] is [Z]. The fee function is embedded on binary64 floats,
      the numbers of the program, in [Binary64]; [get_parking_fee] on exact
      rationals [Q] is its reading without rounding, for the statements
      that say so. The timestamps kept in records are rationals.
    - A [dict] is an association list in insertion order, because
      [remove_vehicle] iterates over [self.slots.values()].
    - [Vehicle] objects are mutable and shared between the caller and the
      slot that holds them: they live in a heap and are named by reference.
    - A [ParkingSlot] object is named by the key of the list that holds it
      and its position in that list; slots are never added or removed after
      initialisation.
    - [self.lock] is a [threading.Lock]; the model is the view of one
      calling thread and records how many times that thread holds the lock.
      Acquiring a non re-entrant lock that the thread already holds blocks
      for ever: the outcome [Deadlock]. The lock object carries a flag
      [reentrant], false for the [threading.Lock] of the constructor, so
      that the methods can also be studied behind a [threading.RLock].
    - [self.users], [register_user], [User] and the interactive front end
      [SmartParkingSystem] are modelled after the slot manager, over a
      [World] that holds the state of the manager, the users, the lines of
      standard input and the output. *)

From Stdlib Require Import QArith Qabs Qminmax Lqa Floats.
From stdpp Require Import base numbers list strings pretty.

Local Open Scope Z_scope.

(** ** Data model *)

Inductive VehicleType := CAR | MOTORCYCLE | TRUCK.

Inductive SlotStatus := AVAILABLE | OCCUPIED | RESERVED.

#[global] Instance VehicleType_eq_dec : EqDecision VehicleType.
Proof. solve_decision. Defined.

#[global] Instance SlotStatus_eq_dec : EqDecision SlotStatus.
Proof. solve_decision. Defined.

(** [vehicle_type.name] *)
Definition VehicleType_name (vt : VehicleType) : string :=
  match vt with
  | CAR => "CAR"
  | MOTORCYCLE => "MOTORCYCLE"
  | TRUCK => "TRUCK"
  end.

(** Reference to a [Vehicle] object: its address in the heap. *)
Abbreviation vref := nat (only parsing).

(** Reference to a [ParkingSlot] object: the key of [self.slots] whose list
    holds it, and its index in that list. *)
Definition sref := (VehicleType * nat)%type.

Record Vehicle := mkVehicle {
  vehicle_id : string;
  license_plate : string;
  vehicle_type : VehicleType;
  owner_name : string;
  entry_time : Q;
  parking_slot_id : option string
}.

(** The field [vehicle_type] of a slot is [slot_vehicle_type] here, the name
    being taken by [Vehicle]. *)
Record ParkingSlot := mkParkingSlot {
  slot_id : string;
  slot_vehicle_type : VehicleType;
  status : SlotStatus;
  vehicle : option vref;
  next_slot : option sref;
  prev_slot : option sref;
  reservation_time : option Q
}.

(** [ParkingSlot.__init__] *)
Definition ParkingSlot_init (sid : string) (vt : VehicleType) : ParkingSlot :=
  {| slot_id := sid; slot_vehicle_type := vt; status := AVAILABLE;
     vehicle := None; next_slot := None; prev_slot := None;
     reservation_time := None |}.

Definition set_status (x : SlotStatus) (sl : ParkingSlot) : ParkingSlot :=
  {| slot_id := slot_id sl; slot_vehicle_type := slot_vehicle_type sl;
     status := x; vehicle := vehicle sl; next_slot := next_slot sl;
     prev_slot := prev_slot sl; reservation_time := reservation_time sl |}.

Definition set_vehicle (x : option vref) (sl : ParkingSlot) : ParkingSlot :=
  {| slot_id := slot_id sl; slot_vehicle_type := slot_vehicle_type sl;
     status := status sl; vehicle := x; next_slot := next_slot sl;
     prev_slot := prev_slot sl; reservation_time := reservation_time sl |}.

Definition set_next_slot (x : option sref) (sl : ParkingSlot) : ParkingSlot :=
  {| slot_id := slot_id sl; slot_vehicle_type := slot_vehicle_type sl;
     status := status sl; vehicle := vehicle sl; next_slot := x;
     prev_slot := prev_slot sl; reservation_time := reservation_time sl |}.

Definition set_prev_slot (x : option sref) (sl : ParkingSlot) : ParkingSlot :=
  {| slot_id := slot_id sl; slot_vehicle_type := slot_vehicle_type sl;
     status := status sl; vehicle := vehicle sl; next_slot := next_slot sl;
     prev_slot := x; reservation_time := reservation_time sl |}.

Definition set_reservation_time (x : option Q) (sl : ParkingSlot) : ParkingSlot :=
  {| slot_id := slot_id sl; slot_vehicle_type := slot_vehicle_type sl;
     status := status sl; vehicle := vehicle sl; next_slot := next_slot sl;
     prev_slot := prev_slot sl; reservation_time := x |}.

Definition set_parking_slot_id (x : option string) (v : Vehicle) : Vehicle :=
  {| vehicle_id := vehicle_id v; license_plate := license_plate v;
     vehicle_type := vehicle_type v; owner_name := owner_name v;
     entry_time := entry_time v; parking_slot_id := x |}.

(** ** Dictionaries in insertion order *)

Section Dict.
Context {K V : Type} `{EqDecision K}.

(** [d.get(k)] *)
Fixpoint dict_get (k : K) (d : list (K * V)) : option V :=
  match d with
  | [] => None
  | (k', v) :: d' => if decide (k = k') then Some v else dict_get k d'
  end.

(** [d[k] = v]: overwrite in place, or append a new key. *)
Fixpoint dict_set (k : K) (v : V) (d : list (K * V)) : list (K * V) :=
  match d with
  | [] => [(k, v)]
  | (k', v') :: d' =>
      if decide (k = k') then (k, v) :: d' else (k', v') :: dict_set k v d'
  end.

(** In-place mutation of the object stored under [k]. *)
Fixpoint dict_alter (f : V → V) (k : K) (d : list (K * V)) : list (K * V) :=
  match d with
  | [] => []
  | (k', v) :: d' =>
      if decide (k = k') then (k', f v) :: d' else (k', v) :: dict_alter f k d'
  end.
End Dict.

(** ** The lock *)

Record LockObj := mkLock {
  reentrant : bool;   (* [threading.RLock] rather than [threading.Lock] *)
  held : nat          (* how many times the calling thread holds it *)
}.

Definition threading_Lock : LockObj := {| reentrant := false; held := 0 |}.
Definition threading_RLock : LockObj := {| reentrant := true; held := 0 |}.

(** [lock.acquire()] by the calling thread; [None] when the call blocks. *)
Definition acquire (l : LockObj) : option LockObj :=
  match held l with
  | O => Some {| reentrant := reentrant l; held := 1 |}
  | S n => if reentrant l
           then Some {| reentrant := reentrant l; held := S (S n) |}
           else None
  end.

(** [lock.release()] *)
Definition release (l : LockObj) : LockObj :=
  {| reentrant := reentrant l; held := Nat.pred (held l) |}.

(** ** Program state and the monad of method bodies *)

Record State := mkState {
  lock : LockObj;
  slots : list (VehicleType * list ParkingSlot);
  total_slots : list (VehicleType * Z);
  heap : list Vehicle
}.

Definition set_lock (l : LockObj) (s : State) : State :=
  {| lock := l; slots := slots s; total_slots := total_slots s; heap := heap s |}.

Definition set_slots (d : list (VehicleType * list ParkingSlot)) (s : State) : State :=
  {| lock := lock s; slots := d; total_slots := total_slots s; heap := heap s |}.

Definition set_total_slots (d : list (VehicleType * Z)) (s : State) : State :=
  {| lock := lock s; slots := slots s; total_slots := d; heap := heap s |}.

Definition set_heap (h : list Vehicle) (s : State) : State :=
  {| lock := lock s; slots := slots s; total_slots := total_slots s; heap := h |}.

Inductive Exn := AttributeError | KeyError.

Inductive Outcome (A : Type) :=
  | Returned (a : A) (s : State)
  | Raised (e : Exn) (s : State)
  | Deadlock.
Arguments Returned {A} a s.
Arguments Raised {A} e s.
Arguments Deadlock {A}.

Definition M (A : Type) := State → Outcome A.

Definition ret {A} (a : A) : M A := λ s, Returned a s.

Definition raise {A} (e : Exn) : M A := λ s, Raised e s.

Definition bind {A B} (m : M A) (k : A → M B) : M B := λ s,
  match m s with
  | Returned a s' => k a s'
  | Raised e s' => Raised e s'
  | Deadlock => Deadlock
  end.

Definition gets {A} (f : State → A) : M A := λ s, Returned (f s) s.

Definition modify (f : State → State) : M unit := λ s, Returned tt (f s).

Definition from_option {A} (e : Exn) (o : option A) : M A :=
  match o with
  | Some a => ret a
  | None => raise e
  end.

Notation "'let*' x ':=' m 'in' k" := (bind m (λ x, k))
  (at level 10, x name, m at level 100, k at level 200, only parsing).
Notation "m ;;; k" := (bind m (λ _, k))
  (at level 100, k at level 200, right associativity, only parsing).

(** [with self.lock: body]: the lock is released on return and on raise. *)
Definition with_lock {A} (body : M A) : M A := λ s,
  match acquire (lock s) with
  | None => Deadlock
  | Some l =>
      match body (set_lock l s) with
      | Returned a s' => Returned a (set_lock (release (lock s')) s')
      | Raised e s' => Raised e (set_lock (release (lock s')) s')
      | Deadlock => Deadlock
      end
  end.

(** The state in which a call leaves the program, when it comes back. *)
Definition final_state {A} (o : Outcome A) : option State :=
  match o with
  | Returned _ s => Some s
  | Raised _ s => Some s
  | Deadlock => None
  end.

(** ** Slot initialisation *)

(** [f"{vehicle_type.name}_SLOT_{i+1}"] *)
Definition slot_name (vt : VehicleType) (i : Z) : string :=
  VehicleType_name vt +:+ "_SLOT_" +:+ pretty (i + 1).

(** [range(count)] *)
Definition range (count : Z) : list Z :=
  Z.of_nat <$> seq 0 (Z.to_nat count).

(** One turn of the inner loop on the list object [self.slots[vehicle_type]]:
    link the new slot behind the last one, then append it. *)
Definition append_linked (vt : VehicleType) (i : Z) (cur : list ParkingSlot)
  : list ParkingSlot :=
  let slot := ParkingSlot_init (slot_name vt i) vt in
  match cur with
  | [] => cur ++ [slot]
  | _ :: _ =>
      let last := Nat.pred (length cur) in
      alter (set_next_slot (Some (vt, length cur))) last cur
        ++ [set_prev_slot (Some (vt, last)) slot]
  end.

(** One turn of the outer loop of [_initialize_slots]. *)
Definition initialize_category (s : State) (entry : VehicleType * Z) : State :=
  let '(vt, count) := entry in
  let s1 := set_total_slots (dict_set vt count (total_slots s)) s in
  let s2 := set_slots (dict_set vt [] (slots s1)) s1 in
  fold_left (λ s' i, set_slots (dict_alter (append_linked vt i) vt (slots s')) s')
            (range count) s2.

(** [_initialize_slots] over [slot_config.items()] *)
Definition _initialize_slots (slot_config : list (VehicleType * Z)) (s : State)
  : State :=
  fold_left initialize_category slot_config s.

(** [ParkingLotManager.__init__], for a given lock object and the heap of
    vehicle objects that exist when the manager is built. *)
Definition manager_with (l : LockObj) (slot_config : list (VehicleType * Z))
    (h : list Vehicle) : State :=
  _initialize_slots slot_config
    {| lock := l; slots := []; total_slots := []; heap := h |}.

(** The constructor as written: [self.lock = threading.Lock()]. *)
Definition ParkingLotManager_init := manager_with threading_Lock.

(** ** Operations *)

(** The scan [for slot in ...: if slot.status == AVAILABLE: return slot];
    [i] is the index of the head of [l]. *)
Fixpoint first_available (l : list ParkingSlot) (i : nat) : option nat :=
  match l with
  | [] => None
  | slot :: rest =>
      if decide (status slot = AVAILABLE) then Some i
      else first_available rest (S i)
  end.

(** [self.slots.get(vehicle_type, [])] *)
Definition slots_get (vt : VehicleType) (s : State) : list ParkingSlot :=
  default [] (dict_get vt (slots s)).

(** [find_available_slot] (lines 95-101): the whole body is one
    [with self.lock:] block. *)
Definition find_available_slot (vt : VehicleType) : M (option sref) :=
  with_lock (
    let* l := gets (slots_get vt) in
    ret (match first_available l 0 with
         | Some i => Some (vt, i)
         | None => None
         end)).

(** [sum(1 for s in l if s.status == OCCUPIED)] *)
Definition occupied_count (l : list ParkingSlot) : Z :=
  Z.of_nat (length (filter (λ sl, status sl = OCCUPIED) l)).

(** Attribute write on the slot object [r]. *)
Definition write_slot (r : sref) (f : ParkingSlot → ParkingSlot) : M unit :=
  modify (λ s, set_slots (dict_alter (alter f r.2) r.1 (slots s)) s).

(** Attribute read on the slot object [r]. *)
Definition read_slot (r : sref) (s : State) : option ParkingSlot :=
  l ← dict_get r.1 (slots s); l !! r.2.

(** Attribute write on the vehicle object [v]. *)
Definition write_vehicle (v : vref) (f : Vehicle → Vehicle) : M unit :=
  modify (λ s, set_heap (alter f v (heap s)) s).

(** [park_vehicle] (lines 103-125): a [with self.lock:] block that calls
    [find_available_slot], itself a [with self.lock:] block. [now] is the
    value of [time.time()] at the assignment of [slot.reservation_time].
    [self.slots[...]] and [slot.slot_id] are read on objects that the scan
    has just gone through; [self.total_slots[...]] raises [KeyError] for a
    missing key, and reading [vehicle.vehicle_type] raises [AttributeError]
    when [v] names no vehicle object. *)
Definition park_vehicle (v : vref) (now : Q) : M (option sref) :=
  with_lock (
    let* veh := bind (gets (λ s, heap s !! v)) (from_option AttributeError) in
    let vt := vehicle_type veh in
    let* slot := find_available_slot vt in
    match slot with
    | Some r =>
        let* l := bind (gets (λ s, dict_get vt (slots s))) (from_option KeyError) in
        let* total := bind (gets (λ s, dict_get vt (total_slots s))) (from_option KeyError) in
        if bool_decide (total ≤ occupied_count l) then ret None
        else
          write_slot r (set_status OCCUPIED) ;;;
          write_slot r (set_vehicle (Some v)) ;;;
          let* sl := bind (gets (read_slot r)) (from_option AttributeError) in
          write_vehicle v (set_parking_slot_id (Some (slot_id sl))) ;;;
          write_slot r (set_reservation_time (Some now)) ;;;
          ret (Some r)
    | None => ret None
    end).

(** The three assignments that free a slot. *)
Definition vacate (sl : ParkingSlot) : ParkingSlot :=
  set_reservation_time None (set_vehicle None (set_status AVAILABLE sl)).

(** The inner loop of [remove_vehicle] over one list: at the first slot with
    the given id that is occupied, its vehicle and the list with that slot
    freed. *)
Fixpoint remove_from_list (sid : string) (l : list ParkingSlot)
  : option (option vref * list ParkingSlot) :=
  match l with
  | [] => None
  | slot :: rest =>
      if decide (slot_id slot = sid ∧ status slot = OCCUPIED)
      then Some (vehicle slot, vacate slot :: rest)
      else match remove_from_list sid rest with
           | Some (v, rest') => Some (v, slot :: rest')
           | None => None
           end
  end.

(** The outer loop over [self.slots.values()]. *)
Fixpoint remove_from_values (sid : string) (d : list (VehicleType * list ParkingSlot))
  : option (option vref * list (VehicleType * list ParkingSlot)) :=
  match d with
  | [] => None
  | (vt, l) :: d' =>
      match remove_from_list sid l with
      | Some (v, l') => Some (v, (vt, l') :: d')
      | None =>
          match remove_from_values sid d' with
          | Some (v, d'') => Some (v, (vt, l) :: d'')
          | None => None
          end
      end
  end.

(** [remove_vehicle] (lines 127-138): one [with self.lock:] block around the
    two nested loops. *)
Definition remove_vehicle (sid : string) : M (option vref) :=
  with_lock (
    let* d := gets slots in
    match remove_from_values sid d with
    | Some (v, d') => modify (set_slots d') ;;; ret v
    | None => ret None
    end).

(** Python's [max(a, b)]: [b] when [b > a], otherwise [a]. *)
Definition py_max (a b : Q) : Q :=
  if Qle_bool b a then a else b.

(** The [return] expression of [get_parking_fee], as a function of the two
    local variables it reads, read over exact rationals: no rounding. The
    arithmetic of the program itself is [Binary64.fee_amount]. *)
Definition fee_amount (hourly_rate duration : Q) : Q :=
  py_max (hourly_rate * (duration / 3600))%Q hourly_rate.

(** [get_parking_fee] read over exact rationals; [now] is the value of
    [time.time()]. The function on the floats of the program is
    [Binary64.get_parking_fee]. *)
Definition get_parking_fee (now : Q) (veh : Vehicle) : Q :=
  let duration := (now - entry_time veh)%Q in
  let hourly_rate := 5%Q in
  fee_amount hourly_rate duration.

(** * Vocabulary of the properties *)

(** ** Entering the lock *)

(** The calling thread can take the lock without blocking. *)
Definition may_enter (l : LockObj) : Prop :=
  held l = 0%nat ∨ reentrant l = true.

(** ** The net effect of a successful [park_vehicle] *)

(** The three assignments of [park_vehicle] to the slot. *)
Definition occupy (v : vref) (now : Q) (sl : ParkingSlot) : ParkingSlot :=
  set_reservation_time (Some now) (set_vehicle (Some v) (set_status OCCUPIED sl)).

(** The state after the four assignments of a successful [park_vehicle]. *)
Definition parked (r : sref) (v : vref) (now : Q) (s : State) : State :=
  match read_slot r s with
  | Some sl =>
      set_heap (alter (set_parking_slot_id (Some (slot_id sl))) v (heap s))
        (set_slots (dict_alter (alter (occupy v now) r.2) r.1 (slots s)) s)
  | None => s
  end.

(** ** How one call changes the pool *)

(** A slot is left alone, taken, or freed. *)
Definition slot_step (sl sl' : ParkingSlot) : Prop :=
  sl' = sl ∨ (∃ v now, sl' = occupy v now sl) ∨ sl' = vacate sl.

(** Same keys in the same order, same number of slots under each key, and
    every slot left alone, taken, or freed. *)
Definition pool_step (d d' : list (VehicleType * list ParkingSlot)) : Prop :=
  Forall2 (λ e e', e.1 = e'.1 ∧ Forall2 slot_step e.2 e'.2) d d'.

#[global] Instance may_enter_dec l : Decision (may_enter l).
Proof. unfold may_enter. apply _. Defined.

(** What a call leaves unchanged. *)
Definition frame (s s' : State) : Prop :=
  pool_step (slots s) (slots s') ∧ total_slots s' = total_slots s ∧ lock s' = lock s.

(** ** Reachable states *)

Inductive Call :=
  | Park (v : vref) (now : Q)
  | Remove (sid : string).

(** The state after a call that comes back, by return or by raise. *)
Definition after (c : Call) (s : State) : option State :=
  match c with
  | Park v now => final_state (park_vehicle v now s)
  | Remove sid => final_state (remove_vehicle sid s)
  end.

(** States reached from [s0] by calls of [park_vehicle] and
    [remove_vehicle]; between the calls the caller may build new [Vehicle]
    objects. *)
Inductive reachable (s0 : State) : State → Prop :=
  | reach_init : reachable s0 s0
  | reach_call s c s' : reachable s0 s → after c s = Some s' → reachable s0 s'
  | reach_new_vehicle s veh :
      reachable s0 s → reachable s0 (set_heap (heap s ++ [veh]) s).

(** ** Invariants of the pool *)

(** occupant present iff Occupied iff occupancy start present *)
Definition slot_ok (sl : ParkingSlot) : Prop :=
  (vehicle sl ≠ None ↔ status sl = OCCUPIED) ∧
  (status sl = OCCUPIED ↔ reservation_time sl ≠ None).

Definition pool_ok (d : list (VehicleType * list ParkingSlot)) : Prop :=
  Forall (λ e, Forall slot_ok e.2) d.

(** Every key has as many slots as recorded in [total_slots] (none for a
    negative count). *)
Definition sized (d : list (VehicleType * list ParkingSlot))
    (t : list (VehicleType * Z)) : Prop :=
  Forall2 (λ e c, e.1 = c.1 ∧ length e.2 = Z.to_nat c.2) d t.

(** The slot at index [i] under key [vt] carries the id built from [vt] and
    [i + 1]. *)
Definition named (d : list (VehicleType * list ParkingSlot)) : Prop :=
  Forall (λ e, ∀ i sl, e.2 !! i = Some sl → slot_id sl = slot_name e.1 (Z.of_nat i)) d.

Record wf (s : State) : Prop := {
  wf_ok : pool_ok (slots s);
  wf_sized : sized (slots s) (total_slots s);
  wf_named : named (slots s);
  wf_keys : NoDup (slots s).*1
}.

(** ** The slots built by initialisation *)

(** The list built under one key by the inner loop of [_initialize_slots]. *)
Definition build_slots (vt : VehicleType) (ixs : list Z) (acc : list ParkingSlot)
  : list ParkingSlot :=
  fold_left (λ l i, append_linked vt i l) ixs acc.

Definition vacant (sl : ParkingSlot) : Prop :=
  status sl = AVAILABLE ∧ vehicle sl = None ∧ reservation_time sl = None.

(** ** Demonstration objects *)

Definition car_A : Vehicle := mkVehicle "a" "KA-01-1234" CAR "Asha" 0%Q None.
Definition car_B : Vehicle := mkVehicle "b" "KA-02-5678" CAR "Bala" 0%Q None.
Definition bike_C : Vehicle := mkVehicle "c" "KA-03-9012" MOTORCYCLE "Chitra" 0%Q None.

(** A lot with one car slot, as the constructor builds it. *)
Definition one_car_lot : State :=
  ParkingLotManager_init [(CAR, 1)] [car_A; car_B; bike_C].

(** The same lot behind a [threading.RLock]. *)
Definition one_car_lot_rlock : State :=
  manager_with threading_RLock [(CAR, 1)] [car_A; car_B; bike_C].

(** [one_car_lot_rlock] after [park_vehicle(car_A)] at time 100. *)
Definition one_car_lot_taken : State :=
  parked (CAR, 0%nat) 0%nat 100%Q one_car_lot_rlock.

(** [one_car_lot] while its lock is held. *)
Definition one_car_lot_held : State :=
  set_lock {| reentrant := false; held := 1 |} one_car_lot.

(** A lot configured with no car slot at all, and one configured with a
    negative count of car slots, as the constructor builds them. *)
Definition no_car_lot : State := ParkingLotManager_init [(CAR, 0)] [car_A; bike_C].

Definition negative_lot : State := ParkingLotManager_init [(CAR, -2)] [].

(** A lot with two car slots behind a [threading.RLock]. *)
Definition two_car_lot_rlock : State :=
  manager_with threading_RLock [(CAR, 2)] [car_A].

(** ** The test of the scan of [remove_vehicle] *)

(** The test of the inner loop. *)
Definition matches (sid : string) (sl : ParkingSlot) : Prop :=
  slot_id sl = sid ∧ status sl = OCCUPIED.

(** A lot whose only car slot has been taken by the vehicle at address 0 at
    time [t]: the fields are the ones the assignments of [park_vehicle]
    write. The vehicle record itself was created at time 0. *)
Definition taken_lot (t : Q) : State :=
  {| lock := threading_Lock;
     slots := [(CAR, [occupy 0%nat t (ParkingSlot_init "CAR_SLOT_1" CAR)])];
     total_slots := [(CAR, 1)];
     heap := [set_parking_slot_id (Some "CAR_SLOT_1") car_A] |}.

(** ** The fee: wording of the specification, outcomes, binary64 *)

(** The fee as the specification words it:
    [amount = max(hourly_rate, hourly_rate * duration / 3600)] with
    [duration = exit_time - entry_time]. *)
Definition compute_fee_spec (entry exit hourly_rate : Q) : Q :=
  Qmax hourly_rate (hourly_rate * (exit - entry) / 3600)%Q.

(** What a call of the fee function can give: an amount, or the failure
    that the specification names. *)
Inductive FeeOutcome :=
  | Amount (amount : Q)
  | InvalidInterval.

(** [get_parking_fee] holds no [raise] and its arithmetic is defined on
    all numbers: every call returns an amount. *)
Definition get_parking_fee_outcome (now : Q) (veh : Vehicle) : FeeOutcome :=
  Amount (get_parking_fee now veh).

(** The same function on binary64 floats, the numbers of the program. *)
Module Binary64.
Local Open Scope float_scope.

(** Python's [max(a, b)] on floats. *)
Definition py_max (a b : float) : float :=
  if PrimFloat.ltb a b then b else a.

Definition get_parking_fee (now entry_time : float) : float :=
  let duration := now - entry_time in
  let hourly_rate := 5 in
  py_max (hourly_rate * (duration / 3600)) hourly_rate.

(** The [return] expression as a function of the local variable
    [duration]. *)
Definition fee_amount (duration : float) : float :=
  let hourly_rate := 5 in
  py_max (hourly_rate * (duration / 3600)) hourly_rate.

End Binary64.

(** ** binary64 amounts against the exact formula *)






(** * The interactive front end: [User], [register_user], [SmartParkingSystem] *)

(** Modelling conventions of the front end
    - [User] objects are mutable and shared between [self.users] and
      [self.current_user]: they live in a heap of their own.
    - [input] and [print] act on the lines still to be read and on the
      output written so far; [input] writes its prompt and raises [EOFError]
      when no line is left.
    - The values of [uuid.uuid4()] and [time.time()] and the builtin [int]
      are given from outside, in an [Env]; the state counts the draws.
    - [print(f"... ${fee:.2f}")] is kept as the event [FeeLine] with the
      amount itself; every other line is the string that is printed.
    - [run_interactive_menu] is a loop; it is modelled with fuel, and
      [S (length stdin)] turns of fuel are shown to be enough.
    - [ParkingLotManager.users] is read by no method of the manager; it is
      kept in the [World], beside the [State] of the manager.
    - The [print] of line 114 in the manager's [park_vehicle] is not
      modelled: its branch is not taken in a state that the manager can
      reach (see the capacity test among the properties). *)

(** ** Users *)

Abbreviation uref := nat (only parsing).

Record User := mkUser {
  user_id : string;
  name : string;
  contact : string;
  vehicles : list vref
}.

(** [self.vehicles.append(vehicle)] *)
Definition add_vehicle_to (v : vref) (u : User) : User :=
  {| user_id := user_id u; name := name u; contact := contact u;
     vehicles := vehicles u ++ [v] |}.

(** ** The world of the program *)

Record Env := mkEnv {
  uuid4 : nat → string;        (* [str(uuid.uuid4())], by number of the draw *)
  time_time : nat → Q;         (* [time.time()], by number of the reading *)
  py_int : string → option Z   (* [int(s)]; [None] stands for [ValueError] *)
}.

Inductive Out :=
  | Prompt (s : string)                      (* written by [input(s)] *)
  | Line (s : string)                        (* [print(s)] *)
  | FeeLine (license_plate : string) (fee : Q).

Inductive PyExn :=
  | ManagerError (e : Exn)
  | ValueError
  | IndexError
  | EOFError.

Record World := mkWorld {
  parking_lot : State;              (* the manager and the vehicle objects *)
  users : list (string * uref);     (* [ParkingLotManager.users] *)
  user_heap : list User;
  current_user : option uref;
  stdin : list string;
  stdout : list Out;                (* oldest first *)
  uuids_drawn : nat;
  times_read : nat
}.

Definition set_parking_lot (x : State) (w : World) : World :=
  {| parking_lot := x; users := users w; user_heap := user_heap w;
     current_user := current_user w; stdin := stdin w; stdout := stdout w;
     uuids_drawn := uuids_drawn w; times_read := times_read w |}.

Definition set_users (x : list (string * uref)) (w : World) : World :=
  {| parking_lot := parking_lot w; users := x; user_heap := user_heap w;
     current_user := current_user w; stdin := stdin w; stdout := stdout w;
     uuids_drawn := uuids_drawn w; times_read := times_read w |}.

Definition set_user_heap (x : list User) (w : World) : World :=
  {| parking_lot := parking_lot w; users := users w; user_heap := x;
     current_user := current_user w; stdin := stdin w; stdout := stdout w;
     uuids_drawn := uuids_drawn w; times_read := times_read w |}.

Definition set_current_user (x : option uref) (w : World) : World :=
  {| parking_lot := parking_lot w; users := users w; user_heap := user_heap w;
     current_user := x; stdin := stdin w; stdout := stdout w;
     uuids_drawn := uuids_drawn w; times_read := times_read w |}.

Definition set_stdin (x : list string) (w : World) : World :=
  {| parking_lot := parking_lot w; users := users w; user_heap := user_heap w;
     current_user := current_user w; stdin := x; stdout := stdout w;
     uuids_drawn := uuids_drawn w; times_read := times_read w |}.

Definition set_stdout (x : list Out) (w : World) : World :=
  {| parking_lot := parking_lot w; users := users w; user_heap := user_heap w;
     current_user := current_user w; stdin := stdin w; stdout := x;
     uuids_drawn := uuids_drawn w; times_read := times_read w |}.

Definition set_uuids_drawn (x : nat) (w : World) : World :=
  {| parking_lot := parking_lot w; users := users w; user_heap := user_heap w;
     current_user := current_user w; stdin := stdin w; stdout := stdout w;
     uuids_drawn := x; times_read := times_read w |}.

Definition set_times_read (x : nat) (w : World) : World :=
  {| parking_lot := parking_lot w; users := users w; user_heap := user_heap w;
     current_user := current_user w; stdin := stdin w; stdout := stdout w;
     uuids_drawn := uuids_drawn w; times_read := x |}.

(** How a piece of the program ends: it returns, it raises, it blocks on
    the lock for ever (what has been written by then is kept), or the model
    has run out of fuel. *)
Inductive Result (A : Type) :=
  | Done (a : A) (w : World)
  | Error (e : PyExn) (w : World)
  | Hang (out : list Out)
  | OutOfFuel.
Arguments Done {A} a w.
Arguments Error {A} e w.
Arguments Hang {A} out.
Arguments OutOfFuel {A}.

Definition IO (A : Type) := World → Result A.

Definition io_ret {A} (a : A) : IO A := λ w, Done a w.

Definition io_raise {A} (e : PyExn) : IO A := λ w, Error e w.

Definition io_bind {A B} (m : IO A) (k : A → IO B) : IO B := λ w,
  match m w with
  | Done a w' => k a w'
  | Error e w' => Error e w'
  | Hang out => Hang out
  | OutOfFuel => OutOfFuel
  end.

Definition io_gets {A} (f : World → A) : IO A := λ w, Done (f w) w.

Definition io_modify (f : World → World) : IO unit := λ w, Done tt (f w).

Definition io_from_option {A} (e : PyExn) (o : option A) : IO A :=
  match o with
  | Some a => io_ret a
  | None => io_raise e
  end.

Notation "'let!' x ':=' m 'in' k" := (io_bind m (λ x, k))
  (at level 10, x name, m at level 100, k at level 200, only parsing).
Notation "m ;! k" := (io_bind m (λ _, k))
  (at level 100, k at level 200, right associativity, only parsing).

(** [for x in l: body(x)] *)
Fixpoint for_each {A} (l : list A) (body : A → IO unit) : IO unit :=
  match l with
  | [] => io_ret tt
  | x :: rest => body x ;! for_each rest body
  end.

(** [print(s)] *)
Definition print (s : string) : IO unit :=
  io_modify (λ w, set_stdout (stdout w ++ [Line s]) w).

(** [input(prompt)] *)
Definition input (prompt : string) : IO string := λ w,
  let w1 := set_stdout (stdout w ++ [Prompt prompt]) w in
  match stdin w1 with
  | [] => Error EOFError w1
  | line :: rest => Done line (set_stdin rest w1)
  end.

(** [l[i]] with Python's indices: a negative index counts from the end, an
    index out of range raises [IndexError] ([None]). *)
Definition py_index {A} (l : list A) (i : Z) : option A :=
  if bool_decide (0 ≤ i) then l !! Z.to_nat i
  else if bool_decide (0 ≤ i + Z.of_nat (length l)) then l !! Z.to_nat (i + Z.of_nat (length l))
  else None.

(** [enumerate(l, start)] *)
Fixpoint enumerate {A} (start : Z) (l : list A) : list (Z * A) :=
  match l with
  | [] => []
  | x :: rest => (start, x) :: enumerate (start + 1) rest
  end.

(** [list(VehicleType)] *)
Definition VehicleType_members : list VehicleType := [CAR; MOTORCYCLE; TRUCK].

Definition newline : string := String (Ascii.ascii_of_nat 10) EmptyString.

(** A method of the manager called from the front end. *)
Definition call_manager {A} (m : M A) : IO A := λ w,
  match m (parking_lot w) with
  | Returned a s => Done a (set_parking_lot s w)
  | Raised e s => Error (ManagerError e) (set_parking_lot s w)
  | Deadlock => Hang (stdout w)
  end.

(** [str(uuid.uuid4())] *)
Definition draw_uuid (env : Env) : IO string := λ w,
  Done (uuid4 env (uuids_drawn w)) (set_uuids_drawn (S (uuids_drawn w)) w).

(** [time.time()] *)
Definition read_time (env : Env) : IO Q := λ w,
  Done (time_time env (times_read w)) (set_times_read (S (times_read w)) w).

(** Attribute reads on a user and on a vehicle object. *)
Definition read_user (u : uref) : IO User :=
  let! o := io_gets (λ w, user_heap w !! u) in
  io_from_option (ManagerError AttributeError) o.

Definition read_vehicle (v : vref) : IO Vehicle :=
  let! o := io_gets (λ w, heap (parking_lot w) !! v) in
  io_from_option (ManagerError AttributeError) o.

(** [User.__init__] (lines 43-47): a fresh object with a drawn id and no
    vehicle. *)
Definition User_init (env : Env) (name contact : string) : IO uref :=
  let! uid := draw_uuid env in
  let! u := io_gets (λ w, length (user_heap w)) in
  io_modify (λ w, set_user_heap (user_heap w ++ [mkUser uid name contact []]) w) ;!
  io_ret u.

(** [User.add_vehicle] (lines 49-51) *)
Definition User_add_vehicle (u : uref) (v : vref) : IO unit :=
  io_modify (λ w, set_user_heap (alter (add_vehicle_to v) u (user_heap w)) w).

(** [ParkingLotManager.register_user] (lines 89-93) *)
Definition register_user (env : Env) (name contact : string) : IO uref :=
  let! user := User_init env name contact in
  let! usr := read_user user in
  io_modify (λ w, set_users (dict_set (user_id usr) user (users w)) w) ;!
  io_ret user.

(** [Vehicle(vehicle_id=..., license_plate=..., vehicle_type=...,
    owner_name=...)]: [entry_time] is read from the clock by the default
    factory, [parking_slot_id] is [None]. *)
Definition Vehicle_init (env : Env) (vid plate : string) (vt : VehicleType)
    (owner : string) : IO vref :=
  let! now := read_time env in
  let! v := io_gets (λ w, length (heap (parking_lot w))) in
  io_modify (λ w, set_parking_lot
                    (set_heap (heap (parking_lot w) ++ [mkVehicle vid plate vt owner now None])
                              (parking_lot w)) w) ;!
  io_ret v.

(** [ParkingLotManager.park_vehicle] called from the front end: the clock is
    read when the call reaches the assignment of [reservation_time]. *)
Definition call_park_vehicle (env : Env) (v : vref) : IO (option sref) :=
  let! now := io_gets (λ w, time_time env (times_read w)) in
  let! slot := call_manager (park_vehicle v now) in
  match slot with
  | Some r => io_modify (λ w, set_times_read (S (times_read w)) w) ;! io_ret (Some r)
  | None => io_ret None
  end.

Module SmartParkingSystem.

(** [SmartParkingSystem.__init__] (lines 148-150), with the lines that
    standard input will give. *)
Definition init (slot_config : list (VehicleType * Z)) (lines : list string) : World :=
  {| parking_lot := ParkingLotManager_init slot_config [];
     users := []; user_heap := []; current_user := None;
     stdin := lines; stdout := []; uuids_drawn := 0; times_read := 0 |}.

(** [register_user] (lines 180-186) *)
Definition register_user (env : Env) : IO unit :=
  let! name := input "Enter user name: " in
  let! contact := input "Enter contact number: " in
  let! user := register_user env name contact in
  let! usr := read_user user in
  print ("User " +:+ name +:+ " registered with ID: " +:+ user_id usr) ;!
  io_modify (set_current_user (Some user)).

(** [add_vehicle] (lines 188-210) *)
Definition add_vehicle (env : Env) : IO unit :=
  let! cu := io_gets current_user in
  match cu with
  | None => print "Please register a user first."
  | Some u =>
      let! license_plate := input "Enter license plate: " in
      print "Select Vehicle Type:" ;!
      for_each (enumerate 1 VehicleType_members)
        (λ iv, print (pretty iv.1 +:+ ". " +:+ VehicleType_name iv.2)) ;!
      let! line := input "Enter vehicle type number: " in
      let! type_choice := io_from_option ValueError (py_int env line) in
      let! vehicle_type :=
        io_from_option IndexError (py_index VehicleType_members (type_choice - 1)) in
      let! vid := draw_uuid env in
      let! usr := read_user u in
      let! vehicle := Vehicle_init env vid license_plate vehicle_type (name usr) in
      User_add_vehicle u vehicle ;!
      let! usr' := read_user u in
      print ("Vehicle " +:+ license_plate +:+ " added to user " +:+ name usr')
  end.

(** [park_vehicle] (lines 212-229) *)
Definition park_vehicle (env : Env) : IO unit :=
  let! cu := io_gets current_user in
  match cu with
  | None => print "No vehicles to park. Add a vehicle first."
  | Some u =>
      let! usr := read_user u in
      match vehicles usr with
      | [] => print "No vehicles to park. Add a vehicle first."
      | _ :: _ =>
          print "Select a vehicle to park:" ;!
          for_each (enumerate 1 (vehicles usr))
            (λ iv, let! veh := read_vehicle iv.2 in
                   print (pretty iv.1 +:+ ". " +:+ license_plate veh +:+ " ("
                          +:+ VehicleType_name (vehicle_type veh) +:+ ")")) ;!
          let! line := input "Enter vehicle number: " in
          let! number := io_from_option ValueError (py_int env line) in
          let choice := number - 1 in
          let! vehicle := io_from_option IndexError (py_index (vehicles usr) choice) in
          let! parked_slot := call_park_vehicle env vehicle in
          match parked_slot with
          | Some r =>
              let! veh := read_vehicle vehicle in
              let! slot := io_bind (io_gets (λ w, read_slot r (parking_lot w)))
                                   (io_from_option (ManagerError AttributeError)) in
              print ("Vehicle " +:+ license_plate veh +:+ " parked in " +:+ slot_id slot)
          | None => print "Parking failed. No available slots."
          end
      end
  end.

(** [list_parked_vehicles] (lines 231-239) *)
Definition list_parked_vehicles : IO unit :=
  print (newline +:+ "--- Parked Vehicles ---") ;!
  let! items := io_gets (λ w, slots (parking_lot w)) in
  for_each items
    (λ item,
       print (newline +:+ VehicleType_name item.1 +:+ " Slots:") ;!
       for_each item.2
         (λ slot,
            if decide (status slot = OCCUPIED) then
              let! v := io_from_option (ManagerError AttributeError) (vehicle slot) in
              let! veh := read_vehicle v in
              print ("Slot: " +:+ slot_id slot +:+ ", Vehicle: " +:+ license_plate veh
                     +:+ ", Owner: " +:+ owner_name veh)
            else io_ret tt)).

(** [exit_vehicle] (lines 241-251) *)
Definition exit_vehicle (env : Env) : IO unit :=
  list_parked_vehicles ;!
  let! sid := input "Enter slot ID to remove vehicle: " in
  let! vehicle := call_manager (remove_vehicle sid) in
  match vehicle with
  | Some v =>
      let! now := read_time env in
      let! veh := read_vehicle v in
      io_modify (λ w, set_stdout
                        (stdout w ++ [FeeLine (license_plate veh) (get_parking_fee now veh)]) w)
  | None => print "No vehicle found in the specified slot."
  end.

(** The seven lines printed at the top of every turn of the menu. *)
Definition print_menu : IO unit :=
  print (newline +:+ "--- Smart Parking System ---") ;!
  print "1. Register User" ;!
  print "2. Add Vehicle" ;!
  print "3. Park Vehicle" ;!
  print "4. List Parked Vehicles" ;!
  print "5. Exit Vehicle" ;!
  print "6. Exit System".

(** [run_interactive_menu] (lines 152-178): [fuel] bounds the number of
    turns of the [while True] loop. *)
Fixpoint menu_loop (env : Env) (fuel : nat) : IO unit :=
  match fuel with
  | O => λ _, OutOfFuel
  | S fuel' =>
      print_menu ;!
      let! choice := input "Enter your choice (1-6): " in
      if decide (choice = "1") then register_user env ;! menu_loop env fuel'
      else if decide (choice = "2") then add_vehicle env ;! menu_loop env fuel'
      else if decide (choice = "3") then park_vehicle env ;! menu_loop env fuel'
      else if decide (choice = "4") then list_parked_vehicles ;! menu_loop env fuel'
      else if decide (choice = "5") then exit_vehicle env ;! menu_loop env fuel'
      else if decide (choice = "6") then io_ret tt
      else print "Invalid choice. Try again." ;! menu_loop env fuel'
  end.

(** Every turn reads a line, so one turn more than there are lines is
    enough fuel. *)
Definition run_interactive_menu (env : Env) : IO unit := λ w,
  menu_loop env (S (length (stdin w))) w.

End SmartParkingSystem.

(** [main] (lines 253-262), on the lines that standard input will give. *)
Definition main (env : Env) (lines : list string) : Result unit :=
  SmartParkingSystem.run_interactive_menu env
    (SmartParkingSystem.init [(CAR, 5); (MOTORCYCLE, 3); (TRUCK, 2)] lines).

(** ** Vocabulary for the front end *)

(** What every piece of the front end keeps, for an invariant [I] of the
    world and a property [J] of what has been written when the program
    blocks. *)
Definition preserves {A} (I : World → Prop) (J : list Out → Prop) (m : IO A) : Prop :=
  ∀ w, I w →
       match m w with
       | Done _ w' => I w'
       | Error _ w' => I w'
       | Hang out => J out
       | OutOfFuel => True
       end.

(** The model of a piece of the program never runs out of fuel. *)
Definition fueled {A} (m : IO A) : Prop := ∀ w, m w ≠ OutOfFuel.

(** No fee has been reported. *)
Definition no_fee (out : list Out) : Prop :=
  Forall (λ o, match o with FeeLine _ _ => False | _ => True end) out.

(** The lot as the constructor leaves it and as, with the lock of the
    constructor, it stays: lock free, slots [d0], capacities [t0], and no
    fee reported so far. *)
Definition idle (d0 : list (VehicleType * list ParkingSlot)) (t0 : list (VehicleType * Z))
    (w : World) : Prop :=
  lock (parking_lot w) = threading_Lock ∧
  slots (parking_lot w) = d0 ∧
  total_slots (parking_lot w) = t0 ∧
  no_fee (stdout w).

(** The lines printed by [list_parked_vehicles] for one list of slots, one
    per OCCUPIED slot. *)
Definition slot_line (h : list Vehicle) (slot : ParkingSlot) : option Out :=
  if decide (status slot = OCCUPIED) then
    match vehicle slot ≫= (λ v, h !! v) with
    | Some veh => Some (Line ("Slot: " +:+ slot_id slot +:+ ", Vehicle: "
                              +:+ license_plate veh +:+ ", Owner: " +:+ owner_name veh))
    | None => None
    end
  else None.

Definition parked_listing (s : State) : list Out :=
  Line (newline +:+ "--- Parked Vehicles ---") ::
  flat_map (λ item : VehicleType * list ParkingSlot,
              Line (newline +:+ VehicleType_name item.1 +:+ " Slots:")
              :: omap (slot_line (heap s)) item.2)
           (slots s).

(** Every OCCUPIED slot holds a vehicle object. *)
Definition listable (s : State) : Prop :=
  Forall (λ item : VehicleType * list ParkingSlot,
            Forall (λ slot, status slot = OCCUPIED →
                            ∃ v veh, vehicle slot = Some v ∧ heap s !! v = Some veh)
                   item.2)
         (slots s).

(** The lines printed by [SmartParkingSystem.park_vehicle] for the vehicles
    of the user. *)
Definition vehicle_line (iv : Z * Vehicle) : Out :=
  Line (pretty iv.1 +:+ ". " +:+ license_plate iv.2 +:+ " ("
        +:+ VehicleType_name (vehicle_type iv.2) +:+ ")").

Definition menu_lines : list Out :=
  [Line (newline +:+ "--- Smart Parking System ---"); Line "1. Register User";
   Line "2. Add Vehicle"; Line "3. Park Vehicle"; Line "4. List Parked Vehicles";
   Line "5. Exit Vehicle"; Line "6. Exit System"].

(** An environment for the examples: [int] reads the numerals from -3 to
    4, as Python's does. *)
Definition demo_int (s : string) : option Z :=
  if decide (s = "-3") then Some (-3)
  else if decide (s = "-2") then Some (-2)
  else if decide (s = "-1") then Some (-1)
  else if decide (s = "0") then Some 0
  else if decide (s = "1") then Some 1
  else if decide (s = "2") then Some 2
  else if decide (s = "3") then Some 3
  else if decide (s = "4") then Some 4
  else None.

Definition demo_env : Env :=
  {| uuid4 := λ n, "uuid-" +:+ pretty n;
     time_time := λ n, inject_Z (1000 * Z.of_nat n);
     py_int := demo_int |}.

(** The world after "1", "Asha", "98765" and "2", "KA-01-1234", "1": one
    user with one car. *)
Definition demo_world (lines : list string) : World :=
  {| parking_lot :=
       set_heap [mkVehicle "uuid-1" "KA-01-1234" CAR "Asha" 0%Q None]
                (ParkingLotManager_init [(CAR, 1)] []);
     users := [("uuid-0", 0%nat)];
     user_heap := [mkUser "uuid-0" "Asha" "98765" [0%nat]];
     current_user := Some 0%nat;
     stdin := lines; stdout := []; uuids_drawn := 2; times_read := 1 |}.


(** A world whose lot, behind a re-entrant lock, has its only car slot taken
    by the first vehicle at time 100. *)
Definition demo_taken_world (lines : list string) : World :=
  {| parking_lot := one_car_lot_taken;
     users := [("uuid-0", 0%nat)];
     user_heap := [mkUser "uuid-0" "Asha" "98765" [0%nat]];
     current_user := Some 0%nat;
     stdin := lines; stdout := []; uuids_drawn := 4; times_read := 8 |}.

(** A world whose lot, behind the lock of the constructor, has its only
    car slot taken by the first vehicle at time 100. *)
Definition demo_occupied_world (lines : list string) : World :=
  {| parking_lot := taken_lot 100;
     users := [("uuid-0", 0%nat)];
     user_heap := [mkUser "uuid-0" "Asha" "98765" [0%nat]];
     current_user := Some 0%nat;
     stdin := lines; stdout := []; uuids_drawn := 4; times_read := 8 |}.

(** The doubly linked chain of one category: every slot points back to the
    slot before it and forward to the slot after it, the first and the last
    to nothing. *)
Definition linked (vt : VehicleType) (l : list ParkingSlot) : Prop :=
  ∀ i sl, l !! i = Some sl →
    prev_slot sl = (if decide (i = 0%nat) then None else Some (vt, Nat.pred i)) ∧
    next_slot sl = (if decide (S i = length l) then None else Some (vt, S i)).

Definition chained (d : list (VehicleType * list ParkingSlot)) : Prop :=
  Forall (λ e, linked e.1 e.2 ∧ Forall (λ sl, slot_vehicle_type sl = e.1) e.2) d.

(** The lines still to be read are a tail of [l0]. *)
Definition stdin_within (l0 : list string) (w : World) : Prop :=
  stdin w `suffix_of` l0.

(** No slot of the pool is taken. *)
Definition all_vacant (d : list (VehicleType * list ParkingSlot)) : Prop :=
  Forall (λ e, Forall vacant e.2) d.

(** * Properties *)

(** ** Equations of the monad *)

Lemma bind_gets {A B} (f : State → A) (k : A → M B) s :
  bind (gets f) k s = k (f s) s.
Proof. reflexivity. Qed.

Lemma bind_lookup {A B} (f : State → option A) e (k : A → M B) s :
  bind (bind (gets f) (from_option e)) k s =
    match f s with
    | Some a => k a s
    | None => Raised e s
    end.
Proof. unfold bind, gets, from_option. by destruct (f s). Qed.

Lemma bind_modify {B} (f : State → State) (k : unit → M B) s :
  bind (modify f) k s = k tt (f s).
Proof. reflexivity. Qed.

Lemma bind_ret {A B} (a : A) (k : A → M B) s : bind (ret a) k s = k a s.
Proof. reflexivity. Qed.

Lemma bind_deadlock {A B} (m : M A) (k : A → M B) s :
  m s = Deadlock → bind m k s = Deadlock.
Proof. unfold bind. by intros ->. Qed.

(** ** The lock discipline *)

Lemma acquire_enter l :
  may_enter l → acquire l = Some {| reentrant := reentrant l; held := S (held l) |}.
Proof.
  destruct l as [b [|n]]; intros [Hh|Hr]; simpl in *; subst; try done.
Qed.

Lemma acquire_blocks l :
  reentrant l = false → held l ≠ 0%nat → acquire l = None.
Proof. destruct l as [b [|n]]; simpl; intros -> ?; done. Qed.

(** A thread that holds a non re-entrant lock blocks on taking it again. *)
Lemma with_lock_blocks {A} (body : M A) s :
  reentrant (lock s) = false → held (lock s) ≠ 0%nat → with_lock body s = Deadlock.
Proof. intros Hr Hh. unfold with_lock. by rewrite acquire_blocks. Qed.

(** A critical section that only reads. *)
Lemma with_lock_gets {A B} (f : State → A) (g : A → B) s :
  (∀ l, f (set_lock l s) = f s) →
  may_enter (lock s) →
  with_lock (bind (gets f) (λ a, ret (g a))) s = Returned (g (f s)) s.
Proof.
  intros Hf He. unfold with_lock. rewrite acquire_enter by done.
  unfold bind, gets, ret. rewrite Hf. f_equal.
  destruct s as [[b n] ? ? ?]; reflexivity.
Qed.

Lemma find_available_slot_enter vt s :
  may_enter (lock s) →
  find_available_slot vt s =
    Returned (match first_available (slots_get vt s) 0 with
              | Some i => Some (vt, i)
              | None => None
              end) s.
Proof.
  intros He. unfold find_available_slot.
  by rewrite (with_lock_gets (slots_get vt)
                (λ l, match first_available l 0 with
                      | Some i => Some (vt, i) | None => None end)).
Qed.

(** Inside [park_vehicle]'s critical section the lock is held; with a
    [threading.Lock] the nested [find_available_slot] can never take it. *)
Lemma park_vehicle_blocks v now s veh :
  reentrant (lock s) = false → heap s !! v = Some veh →
  park_vehicle v now s = Deadlock.
Proof.
  intros Hr Hv. unfold park_vehicle, with_lock.
  destruct (acquire (lock s)) as [l|] eqn:Ha; [|done].
  assert (reentrant l = false ∧ held l ≠ 0%nat) as [Hr' Hh'].
  { unfold acquire in Ha. destruct (lock s) as [b [|n]]; simpl in *; subst; by simplify_eq/=. }
  rewrite bind_lookup. cbn [heap set_lock]. rewrite Hv.
  rewrite bind_deadlock; [done|]. by apply with_lock_blocks.
Qed.

Lemma park_vehicle_bad_reference v now s :
  may_enter (lock s) → heap s !! v = None →
  park_vehicle v now s = Raised AttributeError s.
Proof.
  intros He Hv. unfold park_vehicle, with_lock. rewrite acquire_enter by done.
  rewrite bind_lookup. cbn [heap set_lock]. rewrite Hv.
  f_equal. destruct s as [[b n] ? ? ?]; reflexivity.
Qed.

Lemma park_vehicle_no_entry v now s :
  ¬ may_enter (lock s) → park_vehicle v now s = Deadlock.
Proof.
  intros He. unfold park_vehicle. apply with_lock_blocks.
  - destruct (reentrant (lock s)) eqn:E; [|done]. destruct He; by right.
  - intros Hh. destruct He; by left.
Qed.

Lemma remove_vehicle_no_entry sid s :
  ¬ may_enter (lock s) → remove_vehicle sid s = Deadlock.
Proof.
  intros He. unfold remove_vehicle. apply with_lock_blocks.
  - destruct (reentrant (lock s)) eqn:E; [|done]. destruct He; by right.
  - intros Hh. destruct He; by left.
Qed.

Lemma remove_vehicle_enter sid s :
  may_enter (lock s) →
  remove_vehicle sid s =
    match remove_from_values sid (slots s) with
    | Some (v, d') => Returned v (set_slots d' s)
    | None => Returned None s
    end.
Proof.
  intros He. unfold remove_vehicle, with_lock. rewrite acquire_enter by done.
  unfold bind at 1. unfold gets. simpl.
  destruct (remove_from_values sid (slots s)) as [[v d']|]; simpl.
  - f_equal. destruct s as [[b n] ? ? ?]; reflexivity.
  - f_equal. destruct s as [[b n] ? ? ?]; reflexivity.
Qed.

(** ** Dictionaries and scans: basic facts *)

Section DictFacts.
Context {K V : Type} `{EqDecision K}.
Implicit Types (d : list (K * V)) (k : K).

Lemma dict_get_alter f k k' d :
  dict_get k' (dict_alter f k d) =
    if decide (k = k') then f <$> dict_get k' d else dict_get k' d.
Proof.
  induction d as [|[k0 v0] d IH]; simpl; [by case_decide|].
  repeat (case_decide; simplify_eq/=); rewrite ?IH; try done;
    repeat (case_decide; simplify_eq/=); done.
Qed.

Lemma dict_alter_compose f g k d :
  dict_alter f k (dict_alter g k d) = dict_alter (f ∘ g) k d.
Proof.
  induction d as [|[k0 v0] d IH]; simpl; [done|].
  case_decide; simpl; case_decide; simplify_eq/=; try done.
  by rewrite IH.
Qed.

Lemma dict_alter_ext f g k d :
  (∀ x, f x = g x) → dict_alter f k d = dict_alter g k d.
Proof.
  intros Hfg. induction d as [|[k0 v0] d IH]; simpl; [done|].
  case_decide; by rewrite ?Hfg, ?IH.
Qed.

Lemma dict_get_set k k' v d :
  dict_get k' (dict_set k v d) =
    if decide (k = k') then Some v else dict_get k' d.
Proof.
  induction d as [|[k0 v0] d IH]; simpl.
  - by repeat (case_decide; simplify_eq/=).
  - repeat (case_decide; simplify_eq/=); rewrite ?IH; try done;
      repeat (case_decide; simplify_eq/=); done.
Qed.

Lemma dict_alter_set f k v d :
  dict_alter f k (dict_set k v d) = dict_set k (f v) d.
Proof.
  induction d as [|[k0 v0] d IH]; simpl.
  - by rewrite decide_True.
  - case_decide; simpl; case_decide; simplify_eq/=; try done.
    by rewrite IH.
Qed.

Lemma dict_get_elem_of k v d : dict_get k d = Some v → (k, v) ∈ d.
Proof.
  induction d as [|[k0 v0] d IH]; simpl; [done|].
  case_decide; simplify_eq/=.
  - intros [= ->]. apply list_elem_of_here.
  - intros ?. apply list_elem_of_further. auto.
Qed.

End DictFacts.

(** [first_available l n] is the least position, counted from [n], of a slot
    of [l] whose status is AVAILABLE. *)
Lemma first_available_Some l n i :
  first_available l n = Some i ↔
  ∃ j sl, i = (n + j)%nat ∧ l !! j = Some sl ∧ status sl = AVAILABLE ∧
          ∀ j' sl', (j' < j)%nat → l !! j' = Some sl' → status sl' ≠ AVAILABLE.
Proof.
  revert n. induction l as [|x l IH]; intros n; simpl.
  - split; [done|]. by intros (j & sl & _ & ? & _).
  - case_decide as Hx.
    + split.
      * intros [= <-]. exists 0%nat, x. split; [lia|]. split; [done|]. split; [done|]. lia.
      * intros (j & sl & -> & Hj & Hs & Hmin). destruct j as [|j]; [f_equal; lia|].
        exfalso. by apply (Hmin 0%nat x); [lia|done|].
    + rewrite IH. split.
      * intros (j & sl & -> & Hj & Hs & Hmin). exists (S j), sl.
        split; [lia|]. split; [done|]. split; [done|].
        intros [|j'] sl' Hlt Hl; simplify_eq/=; [done|].
        apply (Hmin j' sl'); [lia|done].
      * intros (j & sl & -> & Hj & Hs & Hmin). destruct j as [|j]; simplify_eq/=.
        exists j, sl. split; [lia|]. split; [done|]. split; [done|].
        intros j' sl' Hlt Hl. apply (Hmin (S j') sl'); [lia|done].
Qed.

Lemma first_available_None l n :
  first_available l n = None ↔ ∀ sl, sl ∈ l → status sl ≠ AVAILABLE.
Proof.
  revert n. induction l as [|x l IH]; intros n; simpl.
  - split; [|done]. intros _ sl Hin. by apply elem_of_nil in Hin.
  - case_decide as Hx.
    + split; [done|]. intros Hall. exfalso. apply (Hall x); [|done]. apply list_elem_of_here.
    + rewrite IH. split.
      * intros Hall sl Hin. apply elem_of_cons in Hin as [->|Hin]; auto.
      * intros Hall sl Hin. apply Hall. by apply list_elem_of_further.
Qed.

(** ** [park_vehicle] behind a re-entrant lock *)

Lemma bind_returned {A B} (m : M A) (k : A → M B) s a s' :
  m s = Returned a s' → bind m k s = k a s'.
Proof. unfold bind. by intros ->. Qed.

Lemma first_available_slots_get vt s i :
  first_available (slots_get vt s) 0 = Some i →
  ∃ l sl, dict_get vt (slots s) = Some l ∧ l !! i = Some sl ∧ status sl = AVAILABLE.
Proof.
  unfold slots_get. intros Hf.
  apply first_available_Some in Hf as (j & sl & -> & Hj & Hs & _).
  destruct (dict_get vt (slots s)) as [l|]; simpl in *; [|done].
  by exists l, sl.
Qed.

Lemma park_vehicle_reentrant v now s veh :
  reentrant (lock s) = true → heap s !! v = Some veh →
  park_vehicle v now s =
    match first_available (slots_get (vehicle_type veh) s) 0 with
    | None => Returned None s
    | Some i =>
        match dict_get (vehicle_type veh) (total_slots s) with
        | None => Raised KeyError s
        | Some total =>
            if bool_decide (total ≤ occupied_count (slots_get (vehicle_type veh) s))
            then Returned None s
            else Returned (Some (vehicle_type veh, i))
                          (parked (vehicle_type veh, i) v now s)
        end
    end.
Proof.
  intros Hr Hv. unfold park_vehicle, with_lock.
  rewrite acquire_enter by (by right).
  set (l1 := {| reentrant := reentrant (lock s); held := S (held (lock s)) |}).
  rewrite bind_lookup. cbn [heap set_lock]. rewrite Hv.
  assert (may_enter (lock (set_lock l1 s))) as He1 by (by right).
  rewrite (bind_returned _ _ _ _ _ (find_available_slot_enter _ _ He1)).
  change (slots_get (vehicle_type veh) (set_lock l1 s)) with (slots_get (vehicle_type veh) s).
  destruct (first_available (slots_get (vehicle_type veh) s) 0) as [i|] eqn:Hf.
  2:{ unfold ret. f_equal. subst l1. by destruct s as [[b n] ? ? ?]. }
  destruct (first_available_slots_get _ _ _ Hf) as (l & sl & Hl & Hi & Hs).
  rewrite bind_lookup. cbn [slots set_lock]. rewrite Hl.
  rewrite bind_lookup. cbn [total_slots set_lock].
  destruct (dict_get (vehicle_type veh) (total_slots s)) as [total|].
  2:{ f_equal. subst l1. by destruct s as [[b n] ? ? ?]. }
  assert (slots_get (vehicle_type veh) s = l) as -> by (unfold slots_get; by rewrite Hl).
  case_bool_decide.
  { unfold ret. f_equal. subst l1. by destruct s as [[b n] ? ? ?]. }
  unfold write_slot. rewrite !bind_modify. rewrite bind_lookup.
  unfold read_slot at 1. cbn [slots set_slots set_lock fst snd].
  rewrite dict_alter_compose, dict_get_alter, decide_True by done.
  rewrite Hl. simpl. rewrite !list_lookup_alter_eq, Hi. simpl.
  f_equal. unfold parked, read_slot. cbn [fst snd]. rewrite Hl. simpl. rewrite Hi.
  rewrite dict_alter_compose. subst l1.
  destruct s as [[b n] ? ? ?]; simpl in *. unfold set_heap, set_slots, set_lock, release; simpl.
  f_equal. apply dict_alter_ext. intros x. unfold compose.
  rewrite !list_alter_alter_eq. reflexivity.
Qed.

(** ** How one call changes the pool *)

Lemma slot_steps_refl l : Forall2 slot_step l l.
Proof. induction l; constructor; auto. by left. Qed.

Lemma pool_step_refl d : pool_step d d.
Proof.
  induction d as [|[k l] d IH]; constructor; auto.
  split; [done|]. apply slot_steps_refl.
Qed.

Lemma slot_steps_alter f i l :
  (∀ sl, slot_step sl (f sl)) → Forall2 slot_step l (alter f i l).
Proof.
  intros Hf. revert i. induction l as [|x l IH]; intros [|i]; simpl; constructor; auto.
  - apply slot_steps_refl.
  - by left.
  - apply IH.
Qed.

Lemma pool_step_alter f k d :
  (∀ l, Forall2 slot_step l (f l)) → pool_step d (dict_alter f k d).
Proof.
  intros Hf. induction d as [|[k0 l] d IH]; simpl; [constructor|].
  case_decide; constructor; simpl; auto.
  - apply pool_step_refl.
  - split; [done|]. apply slot_steps_refl.
Qed.

Lemma remove_from_list_step sid l v l' :
  remove_from_list sid l = Some (v, l') → Forall2 slot_step l l'.
Proof.
  revert v l'. induction l as [|x l IH]; intros v l'; simpl; [done|].
  case_decide.
  - intros [= <- <-]. constructor; [by right; right|apply slot_steps_refl].
  - destruct (remove_from_list sid l) as [[v0 rest]|] eqn:Hl; [|done].
    intros [= <- <-]. constructor; [by left|by eapply IH].
Qed.

Lemma remove_from_values_step sid d v d' :
  remove_from_values sid d = Some (v, d') → pool_step d d'.
Proof.
  revert v d'. induction d as [|[k l] d IH]; intros v d'; simpl; [done|].
  destruct (remove_from_list sid l) as [[v0 l0]|] eqn:Hl.
  - intros [= <- <-]. constructor; [|apply pool_step_refl].
    split; [done|]. by eapply remove_from_list_step.
  - destruct (remove_from_values sid d) as [[v0 d0]|] eqn:Hd; [|done].
    intros [= <- <-]. constructor; [|by eapply IH].
    split; [done|]. apply slot_steps_refl.
Qed.

Lemma frame_refl s : frame s s.
Proof. split; [apply pool_step_refl|done]. Qed.

Lemma parked_frame r v now s : frame s (parked r v now s).
Proof.
  unfold parked. destruct (read_slot r s); [|apply frame_refl].
  split; [|done]. simpl. apply pool_step_alter. intros l.
  apply slot_steps_alter. intros sl. right; left; eauto.
Qed.

Lemma park_vehicle_frame v now s s' :
  final_state (park_vehicle v now s) = Some s' → frame s s'.
Proof.
  destruct (decide (may_enter (lock s))) as [He|He].
  2:{ by rewrite park_vehicle_no_entry. }
  destruct (heap s !! v) as [veh|] eqn:Hv.
  2:{ rewrite park_vehicle_bad_reference by done. intros [= <-]. apply frame_refl. }
  destruct (reentrant (lock s)) eqn:Hr.
  2:{ by rewrite (park_vehicle_blocks _ _ _ veh). }
  rewrite (park_vehicle_reentrant _ _ _ veh) by done.
  destruct (first_available _ _); [|intros [= <-]; apply frame_refl].
  destruct (dict_get _ (total_slots s)); [|intros [= <-]; apply frame_refl].
  case_bool_decide; intros [= <-]; [apply frame_refl|apply parked_frame].
Qed.

Lemma remove_vehicle_frame sid s s' :
  final_state (remove_vehicle sid s) = Some s' → frame s s'.
Proof.
  destruct (decide (may_enter (lock s))) as [He|He].
  2:{ by rewrite remove_vehicle_no_entry. }
  rewrite remove_vehicle_enter by done.
  destruct (remove_from_values sid (slots s)) as [[v d']|] eqn:Hd.
  - intros [= <-]. split; [|done]. by eapply remove_from_values_step.
  - intros [= <-]. apply frame_refl.
Qed.

Lemma after_frame c s s' : after c s = Some s' → frame s s'.
Proof. destruct c; simpl; [apply park_vehicle_frame|apply remove_vehicle_frame]. Qed.

(** ** Every call keeps the invariants *)

Lemma slot_step_ok sl sl' : slot_step sl sl' → slot_ok sl → slot_ok sl'.
Proof.
  intros [->|[(v & now & ->)| ->]] Hok; [done| |]; split; split; simpl; done.
Qed.

Lemma slot_step_id sl sl' : slot_step sl sl' → slot_id sl' = slot_id sl.
Proof. by intros [->|[(v & now & ->)| ->]]. Qed.

Lemma pool_step_keys d d' : pool_step d d' → d'.*1 = d.*1.
Proof.
  induction 1 as [|e e' d d' [He _] _ IH]; [done|].
  by rewrite !fmap_cons, He, IH.
Qed.

Lemma pool_step_ok d d' : pool_step d d' → pool_ok d → pool_ok d'.
Proof.
  unfold pool_ok. induction 1 as [|e e' d d' [_ He] _ IH]; [done|].
  intros Hok. apply Forall_cons in Hok as [Hok1 Hok]. constructor; [|by apply IH].
  clear -He Hok1. induction He as [|x x' l l' Hx _ IHl]; [done|].
  apply Forall_cons in Hok1 as [? ?]. constructor; eauto using slot_step_ok.
Qed.

Lemma pool_step_sized d d' t : pool_step d d' → sized d t → sized d' t.
Proof.
  intros Hstep. revert t. induction Hstep as [|e e' d d' [Hk He] _ IH]; intros t Hs.
  - done.
  - inversion Hs as [|? c ? t' [Hc Hlen] Hrest]; subst. constructor; [|by apply IH].
    split; [congruence|]. by rewrite <- (Forall2_length _ _ _ He).
Qed.

Lemma pool_step_named d d' : pool_step d d' → named d → named d'.
Proof.
  unfold named. induction 1 as [|e e' d d' [Hk He] _ IH]; [done|].
  intros Hn. apply Forall_cons in Hn as [Hn1 Hn]. constructor; [|by apply IH].
  intros i sl' Hi. rewrite <- Hk.
  destruct (Forall2_lookup_r _ _ _ _ _ He Hi) as (sl & Hsl & Hstep).
  rewrite (slot_step_id _ _ Hstep). auto.
Qed.

Lemma frame_wf s s' : frame s s' → wf s → wf s'.
Proof.
  intros (Hp & Ht & _) [? ? ? ?]. split.
  - by eapply pool_step_ok.
  - rewrite Ht. by eapply pool_step_sized.
  - by eapply pool_step_named.
  - by rewrite (pool_step_keys _ _ Hp).
Qed.

(** ** Initialisation establishes the invariants *)

Lemma dict_alter_id {K V} `{EqDecision K} (k : K) (d : list (K * V)) :
  dict_alter (λ x, x) k d = d.
Proof.
  induction d as [|[k0 v0] d IH]; simpl; [done|]. case_decide; by rewrite ?IH.
Qed.

Lemma inner_loop_eq vt ixs s :
  fold_left (λ s' i, set_slots (dict_alter (append_linked vt i) vt (slots s')) s') ixs s
  = set_slots (dict_alter (build_slots vt ixs) vt (slots s)) s.
Proof.
  revert s. induction ixs as [|i ixs IH]; intros s; simpl.
  - unfold build_slots; simpl. rewrite dict_alter_id. by destruct s.
  - rewrite IH. simpl. by rewrite dict_alter_compose.
Qed.

Lemma initialize_category_eq s vt count :
  initialize_category s (vt, count) =
    set_slots (dict_set vt (build_slots vt (range count) []) (slots s))
      (set_total_slots (dict_set vt count (total_slots s)) s).
Proof.
  unfold initialize_category. rewrite inner_loop_eq. simpl.
  by rewrite dict_alter_set.
Qed.

Lemma fmap_alter_invisible {A B} (f : A → B) (g : A → A) i (l : list A) :
  (∀ x, f (g x) = f x) → f <$> alter g i l = f <$> l.
Proof.
  intros Hfg. revert i. induction l as [|y l IH]; intros [|n]; csimpl; [done..| |].
  - by rewrite Hfg.
  - by rewrite IH.
Qed.

Lemma append_linked_ids vt i cur :
  slot_id <$> append_linked vt i cur = (slot_id <$> cur) ++ [slot_name vt i].
Proof.
  unfold append_linked. destruct cur as [|x cur]; [done|].
  rewrite fmap_app. f_equal. by apply fmap_alter_invisible.
Qed.

Lemma append_linked_vacant vt i cur :
  Forall vacant cur → Forall vacant (append_linked vt i cur).
Proof.
  intros Hc. unfold append_linked. destruct cur as [|x cur].
  - by repeat constructor.
  - apply Forall_app. split; [|by repeat constructor].
    apply Forall_alter; [done|]. by intros y _ (? & ? & ?).
Qed.

Lemma build_slots_ids vt ixs acc :
  slot_id <$> build_slots vt ixs acc = (slot_id <$> acc) ++ (slot_name vt <$> ixs).
Proof.
  revert acc. induction ixs as [|i ixs IH]; intros acc; simpl.
  - by rewrite app_nil_r.
  - unfold build_slots in *. simpl. rewrite IH, append_linked_ids.
    by rewrite <- app_assoc.
Qed.

Lemma build_slots_vacant vt ixs acc :
  Forall vacant acc → Forall vacant (build_slots vt ixs acc).
Proof.
  revert acc. induction ixs as [|i ixs IH]; intros acc Hacc; simpl; [done|].
  apply IH. by apply append_linked_vacant.
Qed.

Lemma build_slots_length vt count :
  length (build_slots vt (range count) []) = Z.to_nat count.
Proof.
  rewrite <- (length_fmap slot_id), build_slots_ids. simpl.
  unfold range. by rewrite !length_fmap, length_seq.
Qed.

Lemma build_slots_lookup vt count i sl :
  build_slots vt (range count) [] !! i = Some sl →
  slot_id sl = slot_name vt (Z.of_nat i).
Proof.
  intros Hi. assert ((slot_id <$> build_slots vt (range count) []) !! i = Some (slot_id sl)) as H.
  { by rewrite list_lookup_fmap, Hi. }
  rewrite build_slots_ids in H. simpl in H. unfold range in H.
  rewrite !list_lookup_fmap in H.
  destruct (seq 0 (Z.to_nat count) !! i) as [j|] eqn:Hj; simplify_eq/=.
  apply lookup_seq in Hj as [-> _]. done.
Qed.

Lemma vacant_ok sl : vacant sl → slot_ok sl.
Proof. intros (Hs & Hv & Hr). split; split; rewrite ?Hs, ?Hv, ?Hr; done. Qed.

Section DictSet.
Context {K V : Type} `{EqDecision K}.

Lemma dict_set_Forall (P : K * V → Prop) k v (d : list (K * V)) :
  Forall P d → P (k, v) → Forall P (dict_set k v d).
Proof.
  intros Hd Hk. induction Hd as [|[k0 v0] d H0 Hd IH]; simpl.
  - by repeat constructor.
  - case_decide; constructor; auto.
Qed.

Lemma dict_set_keys k v (d : list (K * V)) :
  NoDup d.*1 → NoDup (dict_set k v d).*1 ∧ ∀ k', k' ∈ (dict_set k v d).*1 → k' = k ∨ k' ∈ d.*1.
Proof.
  induction d as [|[k0 v0] d IH]; simpl.
  - intros _. split; [apply NoDup_singleton|]. intros k' Hk'.
    apply list_elem_of_singleton in Hk'. by left.
  - intros Hnd. apply NoDup_cons in Hnd as [Hk0 Hnd]. case_decide; simpl.
    + subst. split; [by apply NoDup_cons|]. intros k' Hk'. by right.
    + destruct (IH Hnd) as [IH1 IH2]. split.
      * apply NoDup_cons. split; [|done]. intros Hin.
        destruct (IH2 _ Hin); [congruence|done].
      * intros k' Hk'. apply elem_of_cons in Hk' as [->|Hk'].
        -- right. apply list_elem_of_here.
        -- destruct (IH2 _ Hk'); [by left|]. right. by apply list_elem_of_further.
Qed.
End DictSet.

Lemma dict_set_sized vt l count d t :
  sized d t → length l = Z.to_nat count →
  sized (dict_set vt l d) (dict_set vt count t).
Proof.
  intros Hs Hl. induction Hs as [|[k0 l0] [k1 c1] d t [Hk Hlen] Hs IH]; simpl in *.
  - by repeat constructor.
  - subst k1. case_decide; constructor; auto.
Qed.

Lemma initialize_category_wf s entry : wf s → wf (initialize_category s entry).
Proof.
  destruct entry as [vt count]. intros [Hok Hsz Hnm Hk].
  rewrite initialize_category_eq. split; simpl.
  - apply dict_set_Forall; [done|]. simpl.
    eapply Forall_impl; [apply build_slots_vacant; constructor|]. apply vacant_ok.
  - apply dict_set_sized; [done|]. apply build_slots_length.
  - apply dict_set_Forall; [done|]. simpl. intros i sl. apply build_slots_lookup.
  - by apply dict_set_keys.
Qed.

Lemma manager_with_wf l slot_config h : wf (manager_with l slot_config h).
Proof.
  unfold manager_with, _initialize_slots.
  assert (wf {| lock := l; slots := []; total_slots := []; heap := h |}) as H0.
  { split; simpl; constructor. }
  revert H0. generalize {| lock := l; slots := []; total_slots := []; heap := h |}.
  induction slot_config as [|e cfg IH]; intros s Hs; simpl; [done|].
  apply IH. by apply initialize_category_wf.
Qed.

(** ** Reachable states *)

Lemma reachable_total_slots s0 s :
  reachable s0 s → total_slots s = total_slots s0.
Proof.
  induction 1 as [|s c s' _ IH Hc|s veh _ IH]; [done| |done].
  apply after_frame in Hc as (_ & -> & _). done.
Qed.

Lemma reachable_lock s0 s : reachable s0 s → lock s = lock s0.
Proof.
  induction 1 as [|s c s' _ IH Hc|s veh _ IH]; [done| |done].
  apply after_frame in Hc as (_ & _ & ->). done.
Qed.

Lemma reachable_wf s0 s : wf s0 → reachable s0 s → wf s.
Proof.
  intros H0. induction 1 as [|s c s' _ IH Hc|s veh _ IH]; [done| |].
  - eapply frame_wf; [by apply after_frame in Hc|done].
  - by destruct IH.
Qed.

(** ** Slot identifiers *)

Lemma slot_name_inj vt vt' i j :
  slot_name vt i = slot_name vt' j → vt = vt' ∧ i = j.
Proof.
  unfold slot_name. intros H.
  destruct vt, vt'; simpl in H; try discriminate H;
    (split; [done|]); simplify_eq/=; lia.
Qed.

(** ** Counting occupied slots *)

Lemma occupied_count_cons sl l :
  occupied_count (sl :: l) =
    (if decide (status sl = OCCUPIED) then 1 else 0) + occupied_count l.
Proof.
  unfold occupied_count. rewrite filter_cons. case_decide; simpl; lia.
Qed.

Lemma occupied_count_le_length l : occupied_count l ≤ Z.of_nat (length l).
Proof. unfold occupied_count. pose proof (length_filter (λ sl, status sl = OCCUPIED) l). lia. Qed.

Lemma occupied_count_alter f i l sl :
  l !! i = Some sl →
  occupied_count (alter f i l) =
    occupied_count l
    - (if decide (status sl = OCCUPIED) then 1 else 0)
    + (if decide (status (f sl) = OCCUPIED) then 1 else 0).
Proof.
  revert i. induction l as [|x l IH]; intros [|i] Hi; simplify_eq/=.
  - rewrite !occupied_count_cons. lia.
  - rewrite !occupied_count_cons, (IH i) by done. lia.
Qed.

Lemma sized_lookup d t vt cap :
  sized d t → dict_get vt t = Some cap →
  ∃ l, dict_get vt d = Some l ∧ length l = Z.to_nat cap.
Proof.
  induction 1 as [|[k0 l0] [k1 c1] d t [Hk Hlen] _ IH]; simpl in *; [done|].
  subst k1. case_decide.
  - intros [= <-]. eauto.
  - auto.
Qed.

Lemma one_car_lot_taken_reachable : reachable one_car_lot_rlock one_car_lot_taken.
Proof.
  apply (reach_call _ one_car_lot_rlock (Park 0%nat 100%Q)); [apply reach_init|].
  reflexivity.
Qed.

(** ** C1: the capacity invariant *)

(** A configured count of -2: no slot is built, [total_slots] keeps -2, and
    the number of OCCUPIED slots, 0, is above it. *)
Lemma occupied_above_negative_capacity :
  reachable negative_lot negative_lot ∧
  dict_get CAR (total_slots negative_lot) = Some (-2) ∧
  ¬ occupied_count (slots_get CAR negative_lot) ≤ -2.
Proof. split; [apply reach_init|]. split; [reflexivity|]. vm_compute. by intros H. Qed.

(** C1, amended. In every state reachable from initialisation by calls of
    [park_vehicle] and [remove_vehicle], for every category the value
    recorded in [total_slots] at initialisation is still there, and the
    number of slots with status OCCUPIED is at most the number of slots
    that were built, [max(0, value)]: it is at most the recorded value
    exactly when that value is not negative, and for a negative value the
    category has no slot. *)
Theorem occupied_within_capacity l slot_config h s vt cap :
  reachable (manager_with l slot_config h) s →
  dict_get vt (total_slots (manager_with l slot_config h)) = Some cap →
  dict_get vt (total_slots s) = Some cap ∧
  occupied_count (slots_get vt s) ≤ Z.max 0 cap ∧
  (occupied_count (slots_get vt s) ≤ cap ↔ 0 ≤ cap) ∧
  (cap < 0 → slots_get vt s = []).
Proof.
  intros Hreach Hcap.
  pose proof (reachable_wf _ _ (manager_with_wf l slot_config h) Hreach) as [_ Hsz _ _].
  rewrite (reachable_total_slots _ _ Hreach). split; [done|].
  rewrite <- (reachable_total_slots _ _ Hreach) in Hcap.
  destruct (sized_lookup _ _ _ _ Hsz Hcap) as (lst & Hlst & Hlen).
  unfold slots_get. rewrite Hlst. simpl.
  pose proof (occupied_count_le_length lst) as Hle.
  assert (0 ≤ occupied_count lst) as Hge by (unfold occupied_count; lia).
  split; [lia|]. split; [lia|].
  intros Hneg. apply length_zero_iff_nil. lia.
Qed.

Lemma occupied_within_capacity_witness :
  dict_get CAR (total_slots one_car_lot) = Some 1 ∧
  occupied_count (slots_get CAR one_car_lot) ≤ Z.max 0 1 ∧
  (occupied_count (slots_get CAR one_car_lot) ≤ 1 ↔ 0 ≤ 1) ∧
  (1 < 0 → slots_get CAR one_car_lot = []).
Proof.
  apply (occupied_within_capacity threading_Lock [(CAR, 1)]
           [car_A; car_B; bike_C] one_car_lot CAR 1).
  - apply reach_init.
  - reflexivity.
Defined.

(** X6. Whatever the sign of the recorded capacity, the number of OCCUPIED
    slots is at most the number of slots that were built for the category,
    [max(0, capacity)]. *)
Theorem occupied_within_built l slot_config h s vt cap :
  reachable (manager_with l slot_config h) s →
  dict_get vt (total_slots s) = Some cap →
  occupied_count (slots_get vt s) ≤ Z.max 0 cap.
Proof.
  intros Hreach Hcap.
  pose proof (reachable_wf _ _ (manager_with_wf l slot_config h) Hreach) as [_ Hsz _ _].
  destruct (sized_lookup _ _ _ _ Hsz Hcap) as (lst & Hlst & Hlen).
  unfold slots_get. rewrite Hlst. simpl.
  pose proof (occupied_count_le_length lst). lia.
Qed.

Lemma occupied_within_built_witness :
  occupied_count (slots_get CAR one_car_lot_taken) ≤ Z.max 0 1.
Proof.
  apply (occupied_within_built threading_RLock [(CAR, 1)]
           [car_A; car_B; bike_C] one_car_lot_taken CAR 1).
  - exact one_car_lot_taken_reachable.
  - reflexivity.
Defined.

(** ** C2: occupant, status and occupancy start agree *)

(** C2. In every state reachable from initialisation, every slot has an
    occupant iff its status is OCCUPIED iff it has an occupancy-start
    timestamp ([slot_ok]); and every call that comes back preserves this for
    all slots, from any state. *)
Theorem occupant_status_start_agree :
  (∀ l slot_config h s vt lst sl,
     reachable (manager_with l slot_config h) s →
     (vt, lst) ∈ slots s → sl ∈ lst →
     (vehicle sl ≠ None ↔ status sl = OCCUPIED) ∧
     (status sl = OCCUPIED ↔ reservation_time sl ≠ None)) ∧
  (∀ c s s', pool_ok (slots s) → after c s = Some s' → pool_ok (slots s')).
Proof.
  split.
  - intros l cfg h s vt lst sl Hreach Hin Hsl.
    pose proof (reachable_wf _ _ (manager_with_wf l cfg h) Hreach) as [Hok _ _ _].
    unfold pool_ok in Hok. rewrite Forall_forall in Hok.
    specialize (Hok _ Hin). simpl in Hok. rewrite Forall_forall in Hok.
    exact (Hok _ Hsl).
  - intros c s s' Hok Hc. apply after_frame in Hc as (Hp & _).
    by eapply pool_step_ok.
Qed.

Lemma occupant_status_start_agree_witness :
  ((vehicle (occupy 0%nat 100%Q (ParkingSlot_init "CAR_SLOT_1" CAR)) ≠ None
    ↔ status (occupy 0%nat 100%Q (ParkingSlot_init "CAR_SLOT_1" CAR)) = OCCUPIED) ∧
   (status (occupy 0%nat 100%Q (ParkingSlot_init "CAR_SLOT_1" CAR)) = OCCUPIED
    ↔ reservation_time (occupy 0%nat 100%Q (ParkingSlot_init "CAR_SLOT_1" CAR)) ≠ None)) ∧
  pool_ok (slots one_car_lot_taken).
Proof.
  destruct occupant_status_start_agree as [Hreach Hstep]. split.
  - apply (Hreach threading_RLock [(CAR, 1)] [car_A; car_B; bike_C]
             one_car_lot_taken CAR
             [occupy 0%nat 100%Q (ParkingSlot_init "CAR_SLOT_1" CAR)]).
    + exact one_car_lot_taken_reachable.
    + apply list_elem_of_here.
    + apply list_elem_of_here.
  - apply (Hstep (Park 0%nat 100%Q) one_car_lot_rlock one_car_lot_taken).
    + repeat constructor; simpl; done.
    + reflexivity.
Defined.

(** ** C3: outcomes of [park_vehicle] *)

Lemma slots_get_parked vt i v now s l sl :
  dict_get vt (slots s) = Some l → l !! i = Some sl →
  slots_get vt (parked (vt, i) v now s) = alter (occupy v now) i l.
Proof.
  intros Hl Hi. unfold parked, read_slot. cbn [fst snd]. rewrite Hl. simpl.
  rewrite Hi. unfold slots_get. simpl.
  by rewrite dict_get_alter, decide_True, Hl.
Qed.

(** C3. With the lock that the constructor builds, a [threading.Lock],
    [park_vehicle] has no outcome at all: from every state and for every
    request it never returns, neither a slot nor [None]; on a vehicle
    object it blocks for ever, whether the category is missing from the
    pool, has no AVAILABLE slot, or has one; and the only way it comes back
    (by raising, on something that is no vehicle object) leaves the state
    as it was. *)
Theorem park_vehicle_outcomes v now s :
  reentrant (lock s) = false →
  (∀ o s1, park_vehicle v now s ≠ Returned o s1) ∧
  (∀ veh, heap s !! v = Some veh → park_vehicle v now s = Deadlock) ∧
  (∀ s', after (Park v now) s = Some s' → s' = s).
Proof.
  intros Hr.
  assert (∀ veh, heap s !! v = Some veh → park_vehicle v now s = Deadlock) as Hblock.
  { intros veh Hv. by apply (park_vehicle_blocks _ _ _ veh). }
  split; [|split; [done|]]; cbn [after].
  - destruct (heap s !! v) as [veh|] eqn:Hv.
    + by rewrite (Hblock veh eq_refl).
    + destruct (decide (may_enter (lock s))) as [He|He].
      * by rewrite park_vehicle_bad_reference.
      * by rewrite park_vehicle_no_entry.
  - destruct (heap s !! v) as [veh|] eqn:Hv.
    + by rewrite (Hblock veh eq_refl).
    + destruct (decide (may_enter (lock s))) as [He|He].
      * rewrite park_vehicle_bad_reference by done. by intros s' [= <-].
      * by rewrite park_vehicle_no_entry.
Qed.

(** On lots that the constructor has just built: a motorcycle where only
    cars were configured, a car where no car slot was configured, and a car
    where a car slot is free. *)
Lemma park_vehicle_outcomes_witness :
  park_vehicle 2%nat 100%Q one_car_lot = Deadlock ∧
  park_vehicle 0%nat 100%Q no_car_lot = Deadlock ∧
  park_vehicle 0%nat 100%Q one_car_lot = Deadlock.
Proof.
  split; [|split].
  - apply (proj1 (proj2 (park_vehicle_outcomes 2%nat 100%Q one_car_lot eq_refl)) bike_C).
    reflexivity.
  - apply (proj1 (proj2 (park_vehicle_outcomes 0%nat 100%Q no_car_lot eq_refl)) car_A).
    reflexivity.
  - apply (proj1 (proj2 (park_vehicle_outcomes 0%nat 100%Q one_car_lot eq_refl)) car_A).
    reflexivity.
Defined.

(** What the body of [park_vehicle] does once it can run, that is behind a
    lock that its holder can take again: in the two failure situations it
    returns [None] with the whole state unchanged; a call that returns
    [None] has left the whole state unchanged, and a call that returns a
    slot has raised the occupied count of the category by exactly one. *)
Lemma park_vehicle_reentrant_outcomes v now s veh :
  heap s !! v = Some veh →
  (dict_get (vehicle_type veh) (slots s) = None ∨
   (∀ sl, sl ∈ slots_get (vehicle_type veh) s → status sl ≠ AVAILABLE) →
   reentrant (lock s) = true → park_vehicle v now s = Returned None s) ∧
  (∀ r s', park_vehicle v now s = Returned r s' →
     (r = None → s' = s) ∧
     (∀ ref, r = Some ref →
        occupied_count (slots_get (vehicle_type veh) s')
        = occupied_count (slots_get (vehicle_type veh) s) + 1)).
Proof.
  intros Hv.
  assert (dict_get (vehicle_type veh) (slots s) = None ∨
          (∀ sl, sl ∈ slots_get (vehicle_type veh) s → status sl ≠ AVAILABLE) →
          first_available (slots_get (vehicle_type veh) s) 0 = None) as Hnone.
  { intros [Hd|Hall]; apply first_available_None; [|done].
    unfold slots_get. rewrite Hd. simpl. intros sl Hin. by apply elem_of_nil in Hin. }
  split.
  - intros Hfail Hr. rewrite (park_vehicle_reentrant _ _ _ veh) by done.
    by rewrite (Hnone Hfail).
  - intros r s'. destruct (reentrant (lock s)) eqn:Hr.
    2:{ by rewrite (park_vehicle_blocks _ _ _ veh). }
    rewrite (park_vehicle_reentrant _ _ _ veh) by done.
    destruct (first_available _ _) as [i|] eqn:Hf.
    2:{ intros Heq; simplify_eq. split; [done|]. intros ref Href. discriminate. }
    destruct (first_available_slots_get _ _ _ Hf) as (l & sl & Hl & Hi & Hs).
    destruct (dict_get _ (total_slots s)) as [total|]; [|done].
    case_bool_decide.
    { intros Heq; simplify_eq. split; [done|]. intros ref Href. discriminate. }
    intros Heq; simplify_eq. split; [done|].
    intros ref _. rewrite (slots_get_parked _ _ _ _ _ l sl) by done.
    rewrite (occupied_count_alter _ _ _ sl) by done.
    assert (slots_get (vehicle_type veh) s = l) as -> by (unfold slots_get; by rewrite Hl).
    rewrite Hs. simpl. lia.
Qed.

(** ** The scan of [remove_vehicle] *)

Lemma remove_from_list_None sid l :
  remove_from_list sid l = None ↔ ∀ sl, sl ∈ l → ¬ matches sid sl.
Proof.
  induction l as [|x l IH]; simpl.
  - split; [|done]. intros _ sl Hin. by apply elem_of_nil in Hin.
  - case_decide as Hx.
    + split; [done|]. intros Hall. exfalso. apply (Hall x); [apply list_elem_of_here|done].
    + destruct (remove_from_list sid l) as [[v rest]|].
      * split; [done|]. intros Hall. exfalso.
        assert (Some (v, rest) = None) as Hn; [|done].
        apply IH. intros sl Hin. apply Hall. by apply list_elem_of_further.
      * split; [|done]. intros _ sl Hin. apply elem_of_cons in Hin as [->|Hin]; [done|].
        by apply IH.
Qed.

Lemma remove_from_values_None sid d :
  remove_from_values sid d = None ↔
  ∀ vt l sl, (vt, l) ∈ d → sl ∈ l → ¬ matches sid sl.
Proof.
  induction d as [|[k l0] d IH]; simpl.
  - split; [|done]. intros _ vt l sl Hin. by apply elem_of_nil in Hin.
  - destruct (remove_from_list sid l0) as [[v l']|] eqn:Hl.
    + split; [done|]. intros Hall. exfalso.
      assert (remove_from_list sid l0 = None) as Hn; [|congruence].
      apply remove_from_list_None. intros sl Hin. apply (Hall k l0); [apply list_elem_of_here|done].
    + destruct (remove_from_values sid d) as [[v d']|].
      * split; [done|]. intros Hall. exfalso.
        assert (Some (v, d') = None) as Hn; [|done].
        apply IH. intros vt l sl Hin. apply (Hall vt l sl). by apply list_elem_of_further.
      * split; [|done]. intros _ vt l sl Hin Hsl.
        apply elem_of_cons in Hin as [[= -> ->]|Hin].
        -- by apply (proj1 (remove_from_list_None sid l0) Hl).
        -- by apply (proj1 IH eq_refl vt l).
Qed.

Lemma remove_from_list_first sid l1 sl l2 :
  (∀ x, x ∈ l1 → ¬ matches sid x) → matches sid sl →
  remove_from_list sid (l1 ++ sl :: l2) = Some (vehicle sl, l1 ++ vacate sl :: l2).
Proof.
  intros Hl1 Hsl. induction l1 as [|x l1 IH]; simpl.
  - by rewrite decide_True.
  - rewrite decide_False by (apply Hl1, list_elem_of_here).
    rewrite IH; [done|]. intros y Hy. apply Hl1. by apply list_elem_of_further.
Qed.

Lemma remove_from_values_first sid d1 vt l1 sl l2 d2 :
  (∀ k l x, (k, l) ∈ d1 → x ∈ l → ¬ matches sid x) →
  (∀ x, x ∈ l1 → ¬ matches sid x) → matches sid sl →
  remove_from_values sid (d1 ++ (vt, l1 ++ sl :: l2) :: d2)
  = Some (vehicle sl, d1 ++ (vt, l1 ++ vacate sl :: l2) :: d2).
Proof.
  intros Hd1 Hl1 Hsl. induction d1 as [|[k l] d1 IH]; simpl.
  - by rewrite remove_from_list_first.
  - assert (remove_from_list sid l = None) as ->.
    { apply remove_from_list_None. intros x Hx. apply (Hd1 k l); [apply list_elem_of_here|done]. }
    rewrite IH; [done|]. intros k' l' x Hin. apply (Hd1 k' l' x). by apply list_elem_of_further.
Qed.

(** ** C4: failures of [remove_vehicle] *)

(** [remove_vehicle] gives the same answer, [None], for an identifier that
    no slot carries and for the identifier of the AVAILABLE slot of the lot;
    the state is unchanged in both cases. *)
Lemma remove_vehicle_failures_coincide :
  (∃ sl, slots one_car_lot = [(CAR, [sl])] ∧
         slot_id sl = "CAR_SLOT_1" ∧ status sl = AVAILABLE) ∧
  remove_vehicle "CAR_SLOT_1" one_car_lot = Returned None one_car_lot ∧
  remove_vehicle "CAR_SLOT_7" one_car_lot = Returned None one_car_lot.
Proof. split; [eexists; repeat split|split]; reflexivity. Qed.

(** C4, amended. Called with the lock free, [remove_vehicle] returns [None]
    and leaves the whole state unchanged when no slot of any category has
    the given identifier, and also when slots with that identifier exist but
    none of them is OCCUPIED: the two failures have one and the same
    outcome. *)
Theorem remove_vehicle_failure sid s :
  may_enter (lock s) →
  ((∀ vt l sl, (vt, l) ∈ slots s → sl ∈ l → slot_id sl ≠ sid) →
   remove_vehicle sid s = Returned None s) ∧
  ((∃ vt l sl, (vt, l) ∈ slots s ∧ sl ∈ l ∧ slot_id sl = sid) →
   (∀ vt l sl, (vt, l) ∈ slots s → sl ∈ l → slot_id sl = sid → status sl ≠ OCCUPIED) →
   remove_vehicle sid s = Returned None s).
Proof.
  intros He. rewrite remove_vehicle_enter by done. split.
  - intros Hno.
    assert (remove_from_values sid (slots s) = None) as ->; [|done].
    apply remove_from_values_None. intros vt l sl Hin Hsl [Hid _]. by apply (Hno vt l sl).
  - intros _ Hfree.
    assert (remove_from_values sid (slots s) = None) as ->; [|done].
    apply remove_from_values_None. intros vt l sl Hin Hsl [Hid Hst]. by apply (Hfree vt l sl).
Qed.

Lemma remove_vehicle_failure_witness :
  remove_vehicle "CAR_SLOT_7" one_car_lot = Returned None one_car_lot ∧
  remove_vehicle "CAR_SLOT_1" one_car_lot = Returned None one_car_lot.
Proof.
  assert (∀ vt l sl, (vt, l) ∈ slots one_car_lot → sl ∈ l →
          slot_id sl = "CAR_SLOT_1" ∧ status sl = AVAILABLE ∧
          (vt, l) = (CAR, [sl])) as Hlot.
  { intros vt l sl Hin Hsl. apply list_elem_of_singleton in Hin. simplify_eq.
    apply list_elem_of_singleton in Hsl. by subst sl. }
  split.
  - apply (proj1 (remove_vehicle_failure "CAR_SLOT_7" one_car_lot (or_introl eq_refl))).
    intros vt l sl Hin Hsl. destruct (Hlot vt l sl Hin Hsl) as (-> & _). done.
  - apply (proj2 (remove_vehicle_failure "CAR_SLOT_1" one_car_lot (or_introl eq_refl))).
    + exists CAR, [ParkingSlot_init "CAR_SLOT_1" CAR], (ParkingSlot_init "CAR_SLOT_1" CAR).
      split; [apply list_elem_of_here|]. split; [apply list_elem_of_here|done].
    + intros vt l sl Hin Hsl _. destruct (Hlot vt l sl Hin Hsl) as (_ & -> & _). done.
Defined.

(** ** C5: a successful [remove_vehicle] *)

(** The occupancy start is not part of what [remove_vehicle] hands back:
    for a stay that began at 100 and one that began at 200 the call returns
    the same value and leaves the same state, in which the slot holds no
    timestamp and the vehicle carries its own [entry_time], 0. *)
Lemma remove_vehicle_forgets_start :
  (reservation_time <$> read_slot (CAR, 0%nat) (taken_lot 100)) = Some (Some 100%Q) ∧
  (reservation_time <$> read_slot (CAR, 0%nat) (taken_lot 200)) = Some (Some 200%Q) ∧
  remove_vehicle "CAR_SLOT_1" (taken_lot 100) = remove_vehicle "CAR_SLOT_1" (taken_lot 200) ∧
  remove_vehicle "CAR_SLOT_1" (taken_lot 100)
  = Returned (Some 0%nat)
      {| lock := threading_Lock;
         slots := [(CAR, [ParkingSlot_init "CAR_SLOT_1" CAR])];
         total_slots := [(CAR, 1)];
         heap := [set_parking_slot_id (Some "CAR_SLOT_1") car_A] |} ∧
  entry_time (set_parking_slot_id (Some "CAR_SLOT_1") car_A) = 0%Q.
Proof. repeat split; reflexivity. Qed.

(** C5, amended. Called with the lock free on a state in which [sl] is the
    first slot, in scan order, that carries the identifier and is OCCUPIED,
    [remove_vehicle] returns the occupant of [sl] and nothing else; in the
    state it leaves, that slot is AVAILABLE with no occupant and no
    occupancy start, every other slot, the capacities, the lock and all
    vehicle records (each with its own [entry_time]) are as before. The
    occupancy start recorded by [park_vehicle] is erased, not returned. *)
Theorem remove_vehicle_occupied sid s d1 vt l1 sl l2 d2 :
  may_enter (lock s) →
  slots s = d1 ++ (vt, l1 ++ sl :: l2) :: d2 →
  (∀ k l x, (k, l) ∈ d1 → x ∈ l → ¬ (slot_id x = sid ∧ status x = OCCUPIED)) →
  (∀ x, x ∈ l1 → ¬ (slot_id x = sid ∧ status x = OCCUPIED)) →
  slot_id sl = sid → status sl = OCCUPIED →
  ∃ sl',
    remove_vehicle sid s
    = Returned (vehicle sl)
        {| lock := lock s;
           slots := d1 ++ (vt, l1 ++ sl' :: l2) :: d2;
           total_slots := total_slots s;
           heap := heap s |} ∧
    status sl' = AVAILABLE ∧ vehicle sl' = None ∧ reservation_time sl' = None ∧
    slot_id sl' = slot_id sl.
Proof.
  intros He Hs Hd1 Hl1 Hid Hst. exists (vacate sl).
  split; [|done].
  rewrite remove_vehicle_enter by done. rewrite Hs.
  by rewrite (remove_from_values_first sid d1 vt l1 sl l2 d2).
Qed.

Lemma remove_vehicle_occupied_witness :
  ∃ sl',
    remove_vehicle "CAR_SLOT_1" (taken_lot 100)
    = Returned (Some 0%nat)
        {| lock := threading_Lock;
           slots := [(CAR, [sl'])];
           total_slots := [(CAR, 1)];
           heap := [set_parking_slot_id (Some "CAR_SLOT_1") car_A] |} ∧
    status sl' = AVAILABLE ∧ vehicle sl' = None ∧ reservation_time sl' = None ∧
    slot_id sl' = "CAR_SLOT_1".
Proof.
  apply (remove_vehicle_occupied "CAR_SLOT_1" (taken_lot 100) [] CAR []
           (occupy 0%nat 100%Q (ParkingSlot_init "CAR_SLOT_1" CAR)) [] []).
  - left. reflexivity.
  - reflexivity.
  - intros k l x Hin. by apply elem_of_nil in Hin.
  - intros x Hin. by apply elem_of_nil in Hin.
  - reflexivity.
  - reflexivity.
Defined.

(** ** C8: the fee read over exact rationals *)

Section Fee.
Local Open Scope Q_scope.

Lemma py_max_Qmax a b : py_max a b == Qmax b a.
Proof.
  unfold py_max. destruct (Qle_bool b a) eqn:E.
  - apply Qle_bool_iff in E. symmetry. by apply Q.max_r.
  - assert (¬ b <= a) as Hn by (intros H; apply Qle_bool_iff in H; congruence).
    symmetry. apply Q.max_l. apply Qnot_le_lt in Hn. by apply Qlt_le_weak.
Qed.

Lemma fee_amount_spec hourly_rate entry exit :
  fee_amount hourly_rate (exit - entry) == compute_fee_spec entry exit hourly_rate.
Proof.
  unfold fee_amount, compute_fee_spec. rewrite py_max_Qmax.
  apply Q.max_compat; [reflexivity|]. unfold Qdiv. ring.
Qed.

Lemma get_parking_fee_spec now veh :
  get_parking_fee now veh == compute_fee_spec (entry_time veh) now 5.
Proof. unfold get_parking_fee. apply fee_amount_spec. Qed.

Lemma hours_le_one d : d <= 3600 → 5 * (d / 3600) <= 5.
Proof.
  intros Hd.
  assert (d / 3600 <= 1) as H1 by (apply Qle_shift_div_r; [reflexivity|lra]).
  set (x := d / 3600) in *. clearbody x. lra.
Qed.

Lemma hours_ge_one d : 3600 <= d → 5 <= 5 * (d / 3600).
Proof.
  intros Hd.
  assert (1 <= d / 3600) as H1 by (apply Qle_shift_div_l; [reflexivity|lra]).
  set (x := d / 3600) in *. clearbody x. lra.
Qed.

Lemma get_parking_fee_floor now veh :
  now - entry_time veh <= 3600 → get_parking_fee now veh == 5.
Proof.
  intros Hd. unfold get_parking_fee, fee_amount. rewrite py_max_Qmax.
  apply Q.max_l. by apply hours_le_one.
Qed.

Lemma get_parking_fee_linear now veh :
  3600 <= now - entry_time veh →
  get_parking_fee now veh == 5 * (now - entry_time veh) / 3600.
Proof.
  intros Hd. unfold get_parking_fee, fee_amount. rewrite py_max_Qmax.
  rewrite Q.max_r by (by apply hours_ge_one). unfold Qdiv. ring.
Qed.

(** The fee read over exact rationals: for every entry time, exit time and
    hourly rate the return expression is
    [max(hourly_rate, hourly_rate * (exit_time - entry_time) / 3600)]; at
    the rate 5 of the function a stay of 1 second and a stay of 3600
    seconds cost 5, a stay of 7200 seconds costs 10, and from one hour on
    the fee is [5 * duration / 3600]. *)
Lemma get_parking_fee_exact_formula hourly_rate now veh :
  fee_amount hourly_rate (now - entry_time veh)
    == compute_fee_spec (entry_time veh) now hourly_rate ∧
  get_parking_fee now veh = fee_amount 5 (now - entry_time veh) ∧
  get_parking_fee now veh == compute_fee_spec (entry_time veh) now 5 ∧
  get_parking_fee (entry_time veh + 1) veh == 5 ∧
  get_parking_fee (entry_time veh + 3600) veh == 5 ∧
  get_parking_fee (entry_time veh + 7200) veh == 10 ∧
  (3600 <= now - entry_time veh →
   get_parking_fee now veh == 5 * (now - entry_time veh) / 3600).
Proof.
  split; [apply fee_amount_spec|]. split; [reflexivity|].
  split; [apply get_parking_fee_spec|].
  split; [apply get_parking_fee_floor; lra|].
  split; [apply get_parking_fee_floor; lra|].
  split; [|apply get_parking_fee_linear].
  rewrite get_parking_fee_linear by lra. field. discriminate.
Qed.

(** A vehicle that entered at 100, priced at 99: the call returns the
    amount 5, it does not fail. *)
Lemma get_parking_fee_accepts_negative_stay :
  let late := mkVehicle "d" "KA-04-3456" CAR "Devi" 100 None in
  99 < entry_time late ∧
  get_parking_fee_outcome 99 late ≠ InvalidInterval ∧
  get_parking_fee_outcome 99 late = Amount 5.
Proof. intros late. split; [reflexivity|]. split; [discriminate|reflexivity]. Qed.

(** C8, amended. When the time of the call is before the entry time of the
    vehicle, the fee computation does not fail: it returns the one-hour
    minimum, 5. *)
Theorem get_parking_fee_negative_stay now veh :
  now < entry_time veh →
  get_parking_fee_outcome now veh ≠ InvalidInterval ∧
  ∃ amount, get_parking_fee_outcome now veh = Amount amount ∧ amount == 5.
Proof.
  intros Hlt. split; [discriminate|].
  exists (get_parking_fee now veh). split; [reflexivity|].
  apply get_parking_fee_floor. lra.
Qed.

Lemma get_parking_fee_negative_stay_witness :
  get_parking_fee_outcome (-1) car_A ≠ InvalidInterval ∧
  ∃ amount, get_parking_fee_outcome (-1) car_A = Amount amount ∧ amount == 5.
Proof.
  apply (get_parking_fee_negative_stay (-1) car_A). reflexivity.
Defined.
End Fee.


(** On binary64 the product of the code, [hourly_rate * (duration / 3600)],
    and the other association, [(hourly_rate * duration) / 3600], can differ
    in the last bit: they do for a stay of 3700 seconds. *)
Lemma binary64_fee_association :
  PrimFloat.eqb (5 * (3700 / 3600))%float ((5 * 3700) / 3600)%float = false ∧
  PrimFloat.eqb (Binary64.get_parking_fee 3700%float 0%float)
                (5 * (3700 / 3600))%float = true.
Proof. split; reflexivity. Qed.

(** ** C7: the fee on binary64 *)










(** ** Removal by the identifier of a named slot *)

Lemma dict_get_split {K V} `{EqDecision K} (k : K) (v : V) (d : list (K * V)) :
  dict_get k d = Some v → ∃ d1 d2, d = d1 ++ (k, v) :: d2 ∧ k ∉ d1.*1.
Proof.
  induction d as [|[k0 v0] d IH]; simpl; [done|]. case_decide.
  - intros [= ->]. subst k0. exists [], d. split; [done|]. apply not_elem_of_nil.
  - intros Hd. destruct (IH Hd) as (d1 & d2 & -> & Hk).
    exists ((k0, v0) :: d1), d2. split; [done|].
    rewrite fmap_cons. intros Hin. apply elem_of_cons in Hin as [?|?]; done.
Qed.

Lemma alter_middle {A} (f : A → A) (l : list A) i x :
  l !! i = Some x → take i l ++ f x :: drop (S i) l = alter f i l.
Proof.
  revert i. induction l as [|y l IH]; intros [|i] Hi; simplify_eq/=; [done|].
  f_equal. by apply IH.
Qed.

Lemma remove_vehicle_by_name s vt i l sl :
  named (slots s) → may_enter (lock s) →
  dict_get vt (slots s) = Some l → l !! i = Some sl → status sl = OCCUPIED →
  ∃ s', remove_vehicle (slot_id sl) s = Returned (vehicle sl) s' ∧
        heap s' = heap s ∧ lock s' = lock s ∧
        slots_get vt s' = alter vacate i l.
Proof.
  intros Hn He Hl Hi Hocc.
  destruct (dict_get_split _ _ _ Hl) as (d1 & d2 & Hd & Hk).
  pose proof (take_drop_middle _ _ _ Hi) as Hmid.
  unfold named in Hn. rewrite Hd in Hn.
  apply Forall_app in Hn as [Hn1 Hn2]. apply Forall_cons in Hn2 as [Hnl _].
  simpl in Hnl. pose proof (Hnl i sl Hi) as Hid.
  assert (remove_from_values (slot_id sl) (slots s)
          = Some (vehicle sl, d1 ++ (vt, alter vacate i l) :: d2)) as Hrm.
  { rewrite Hd, <- (alter_middle vacate l i sl Hi).
    replace (d1 ++ (vt, l) :: d2)
      with (d1 ++ (vt, take i l ++ sl :: drop (S i) l) :: d2) by (by rewrite Hmid).
    apply remove_from_values_first; [| |done].
    - intros k l0 x Hin Hx [Hidx _].
      rewrite Forall_forall in Hn1. specialize (Hn1 _ Hin). simpl in Hn1.
      apply list_elem_of_lookup in Hx as [j Hj]. rewrite (Hn1 j x Hj), Hid in Hidx.
      apply slot_name_inj in Hidx as [-> _].
      apply Hk. apply list_elem_of_fmap. by exists (vt, l0).
    - intros x Hx [Hidx _].
      apply list_elem_of_lookup in Hx as [j Hj].
      pose proof (lookup_lt_Some _ _ _ Hj) as Hlt. rewrite length_take in Hlt.
      rewrite lookup_take_lt in Hj by lia.
      rewrite (Hnl j x Hj), Hid in Hidx. apply slot_name_inj in Hidx as [_ Hij]. lia. }
  rewrite remove_vehicle_enter, Hrm by done.
  eexists. split; [done|]. split; [done|]. split; [done|].
  unfold slots_get. simpl.
  assert (dict_get vt (d1 ++ (vt, alter vacate i l) :: d2) = Some (alter vacate i l)) as ->; [|done].
  clear -Hk. induction d1 as [|[k0 v0] d1 IH]; simpl.
  - by rewrite decide_True.
  - rewrite fmap_cons in Hk. rewrite decide_False; [apply IH|].
    + intros Hin. apply Hk. by apply list_elem_of_further.
    + intros ->. apply Hk. apply list_elem_of_here.
Qed.

(** ** C9: the lock in [park_vehicle] *)

Lemma initialize_slots_lock slot_config s :
  lock (_initialize_slots slot_config s) = lock s.
Proof.
  unfold _initialize_slots. revert s.
  induction slot_config as [|[vt count] cfg IH]; intros s; cbn [fold_left]; [done|].
  by rewrite IH, initialize_category_eq.
Qed.

Lemma manager_with_lock l slot_config h : lock (manager_with l slot_config h) = l.
Proof. unfold manager_with. by rewrite initialize_slots_lock. Qed.

(** C9. [park_vehicle] takes [self.lock] and, still holding it, calls
    [find_available_slot], which takes [self.lock] again. The lock built by
    the constructor is a [threading.Lock], so in every state reachable from
    the constructor a call of [park_vehicle] on a vehicle object blocks for
    ever, before any slot has been looked at or changed. *)
Theorem park_vehicle_self_deadlock slot_config h s v now veh :
  reachable (ParkingLotManager_init slot_config h) s →
  heap s !! v = Some veh →
  park_vehicle v now s = Deadlock.
Proof.
  intros Hreach Hv. apply (park_vehicle_blocks _ _ _ veh); [|done].
  rewrite (reachable_lock _ _ Hreach).
  unfold ParkingLotManager_init. by rewrite manager_with_lock.
Qed.

Lemma park_vehicle_self_deadlock_witness :
  park_vehicle 0%nat 100%Q one_car_lot = Deadlock.
Proof.
  apply (park_vehicle_self_deadlock [(CAR, 1)] [car_A; car_B; bike_C]
           one_car_lot 0%nat 100%Q car_A).
  - apply reach_init.
  - reflexivity.
Defined.

(** X5. [remove_vehicle] and [find_available_slot] take the lock once. With
    the kind of lock that the constructor builds, from every state they
    come back when the lock is free at the call, [remove_vehicle] leaving
    it free again and [find_available_slot] leaving the state as it was;
    and they block when the lock is held. *)
Theorem single_acquisition_returns s :
  reentrant (lock s) = false →
  if decide (held (lock s) = 0%nat)
  then (∀ sid, ∃ r s', remove_vehicle sid s = Returned r s' ∧ lock s' = lock s) ∧
       (∀ vt, ∃ r, find_available_slot vt s = Returned r s)
  else (∀ sid, remove_vehicle sid s = Deadlock) ∧
       (∀ vt, find_available_slot vt s = Deadlock).
Proof.
  intros Hr. case_decide as Hh.
  - assert (may_enter (lock s)) as He by (by left). split.
    + intros sid. rewrite remove_vehicle_enter by done.
      destruct (remove_from_values sid (slots s)) as [[r d']|]; by eexists _, _.
    + intros vt. rewrite find_available_slot_enter by done. by eexists.
  - split.
    + intros sid. unfold remove_vehicle. by apply with_lock_blocks.
    + intros vt. unfold find_available_slot. by apply with_lock_blocks.
Qed.

Lemma single_acquisition_returns_witness :
  ((∀ sid, ∃ r s', remove_vehicle sid one_car_lot = Returned r s' ∧
                    lock s' = lock one_car_lot) ∧
   (∀ vt, ∃ r, find_available_slot vt one_car_lot = Returned r one_car_lot)) ∧
  ((∀ sid, remove_vehicle sid one_car_lot_held = Deadlock) ∧
   (∀ vt, find_available_slot vt one_car_lot_held = Deadlock)).
Proof.
  split.
  - exact (single_acquisition_returns one_car_lot eq_refl).
  - exact (single_acquisition_returns one_car_lot_held eq_refl).
Defined.

(** ** C6: first fit *)

(** X4. [find_available_slot], called with the lock free, returns the
    AVAILABLE slot of the category that comes first in creation order and
    changes nothing; in a state whose slots carry their initial names this
    is the AVAILABLE slot with the smallest sequence number. *)
Theorem find_available_slot_first_fit vt s l :
  may_enter (lock s) →
  dict_get vt (slots s) = Some l →
  (∃ sl, sl ∈ l ∧ status sl = AVAILABLE) →
  ∃ i sl,
    find_available_slot vt s = Returned (Some (vt, i)) s ∧
    l !! i = Some sl ∧ status sl = AVAILABLE ∧
    (∀ j sl', (j < i)%nat → l !! j = Some sl' → status sl' ≠ AVAILABLE) ∧
    (named (slots s) → slot_id sl = slot_name vt (Z.of_nat i)).
Proof.
  intros He Hl (sl0 & Hin & Hs0).
  rewrite find_available_slot_enter by done.
  unfold slots_get. rewrite Hl. simpl.
  destruct (first_available l 0) as [i|] eqn:Hf.
  - apply first_available_Some in Hf as (j & sl & -> & Hj & Hs & Hmin).
    exists j, sl. simpl. split; [done|]. split; [done|]. split; [done|].
    split; [done|]. intros Hn. unfold named in Hn. rewrite Forall_forall in Hn.
    apply (Hn (vt, l)); [|done]. by apply dict_get_elem_of.
  - exfalso. by apply (proj1 (first_available_None l 0) Hf sl0).
Qed.

Lemma find_available_slot_first_fit_witness :
  ∃ i sl,
    find_available_slot CAR one_car_lot = Returned (Some (CAR, i)) one_car_lot ∧
    [ParkingSlot_init "CAR_SLOT_1" CAR] !! i = Some sl ∧ status sl = AVAILABLE ∧
    (∀ j sl', (j < i)%nat → [ParkingSlot_init "CAR_SLOT_1" CAR] !! j = Some sl' →
              status sl' ≠ AVAILABLE) ∧
    (named (slots one_car_lot) → slot_id sl = slot_name CAR (Z.of_nat i)).
Proof.
  apply (find_available_slot_first_fit CAR one_car_lot [ParkingSlot_init "CAR_SLOT_1" CAR]).
  - left. reflexivity.
  - reflexivity.
  - exists (ParkingSlot_init "CAR_SLOT_1" CAR). split; [apply list_elem_of_here|done].
Defined.

(** X8. The scenario of the specification, run with a [threading.RLock] in
    the place of the [threading.Lock]: park A takes CAR_SLOT_1, park B finds
    the lot full, releasing CAR_SLOT_1 gives A back, park B takes
    CAR_SLOT_1. *)
Theorem one_slot_scenario_reentrant :
  ∃ s1 s2 s3,
    park_vehicle 0%nat 100%Q one_car_lot_rlock = Returned (Some (CAR, 0%nat)) s1 ∧
    (slot_id <$> read_slot (CAR, 0%nat) s1) = Some "CAR_SLOT_1" ∧
    park_vehicle 1%nat 200%Q s1 = Returned None s1 ∧
    remove_vehicle "CAR_SLOT_1" s1 = Returned (Some 0%nat) s2 ∧
    park_vehicle 1%nat 300%Q s2 = Returned (Some (CAR, 0%nat)) s3 ∧
    (slot_id <$> read_slot (CAR, 0%nat) s3) = Some "CAR_SLOT_1" ∧
    (vehicle <$> read_slot (CAR, 0%nat) s3) = Some (Some 1%nat).
Proof. do 3 eexists. repeat split; reflexivity. Qed.

(** C6, on the lot of the scenario as the constructor builds it: the lookup
    by itself selects CAR_SLOT_1, but the first [park_vehicle] of the
    scenario already blocks, so no slot identity is ever yielded. *)
Theorem one_slot_scenario_blocks :
  find_available_slot CAR one_car_lot = Returned (Some (CAR, 0%nat)) one_car_lot ∧
  (slot_id <$> read_slot (CAR, 0%nat) one_car_lot) = Some "CAR_SLOT_1" ∧
  park_vehicle 0%nat 100%Q one_car_lot = Deadlock ∧
  after (Park 0%nat 100%Q) one_car_lot = None.
Proof. repeat split; reflexivity. Qed.

(** ** C10: the vehicle record *)

Lemma initialize_slots_heap slot_config s :
  heap (_initialize_slots slot_config s) = heap s.
Proof.
  unfold _initialize_slots. revert s.
  induction slot_config as [|[vt count] cfg IH]; intros s; cbn [fold_left]; [done|].
  by rewrite IH, initialize_category_eq.
Qed.

Lemma manager_with_vacant l slot_config h :
  all_vacant (slots (manager_with l slot_config h)).
Proof.
  unfold manager_with, _initialize_slots.
  assert (all_vacant (slots {| lock := l; slots := []; total_slots := []; heap := h |})) as H0
    by constructor.
  revert H0. generalize {| lock := l; slots := []; total_slots := []; heap := h |}.
  induction slot_config as [|[vt count] cfg IH]; intros s Hs; cbn [fold_left]; [done|].
  apply IH. rewrite initialize_category_eq. simpl.
  apply dict_set_Forall; [done|]. simpl. apply build_slots_vacant. constructor.
Qed.

Lemma all_vacant_no_match sid d :
  all_vacant d → remove_from_values sid d = None.
Proof.
  intros Hd. apply remove_from_values_None. intros vt l sl Hin Hsl [_ Hocc].
  unfold all_vacant in Hd. rewrite Forall_forall in Hd. specialize (Hd _ Hin).
  simpl in Hd. rewrite Forall_forall in Hd. destruct (Hd _ Hsl) as (Hs & _).
  congruence.
Qed.

(** A manager call on a lot that is all vacant behind the lock of the
    constructor: it comes back only with the state it found. *)
Lemma vacant_after c s s' :
  lock s = threading_Lock → all_vacant (slots s) → after c s = Some s' → s' = s.
Proof.
  intros Hlock Hvac. destruct c as [v now|sid]; simpl.
  - destruct (heap s !! v) as [veh|] eqn:Hv.
    + rewrite (park_vehicle_blocks _ _ _ veh); [done| |done]. by rewrite Hlock.
    + rewrite park_vehicle_bad_reference; [|left; by rewrite Hlock|done].
      by intros [= <-].
  - rewrite remove_vehicle_enter by (left; by rewrite Hlock).
    rewrite all_vacant_no_match by done. by intros [= <-].
Qed.

Lemma vacant_remove sid s v s' :
  lock s = threading_Lock → all_vacant (slots s) →
  remove_vehicle sid s = Returned (Some v) s' → False.
Proof.
  intros Hlock Hvac. rewrite remove_vehicle_enter by (left; by rewrite Hlock).
  by rewrite all_vacant_no_match.
Qed.




(** What the two bodies do once [park_vehicle] can run, that is behind a
    lock that its holder can take again: whenever [park_vehicle] returns a
    slot, the vehicle object that was passed in has had its
    [parking_slot_id] set to the identifier of that slot and the slot holds
    that very object; releasing the slot right away returns the same object
    and leaves every vehicle record as it was. *)
Lemma park_marks_vehicle_reentrant l slot_config h s v now r s1 :
  reachable (manager_with l slot_config h) s →
  park_vehicle v now s = Returned (Some r) s1 →
  ∃ sl veh s2,
    read_slot r s1 = Some sl ∧ vehicle sl = Some v ∧
    heap s !! v = Some veh ∧
    heap s1 !! v = Some (set_parking_slot_id (Some (slot_id sl)) veh) ∧
    remove_vehicle (slot_id sl) s1 = Returned (Some v) s2 ∧
    heap s2 = heap s1 ∧
    (parking_slot_id <$> heap s2 !! v) = Some (Some (slot_id sl)) ∧
    (status <$> read_slot r s2) = Some AVAILABLE.
Proof.
  intros Hreach Hpark.
  pose proof (reachable_wf _ _ (manager_with_wf l slot_config h) Hreach) as Hwf.
  destruct (heap s !! v) as [veh|] eqn:Hv.
  2:{ destruct (decide (may_enter (lock s))).
      - by rewrite park_vehicle_bad_reference in Hpark.
      - by rewrite park_vehicle_no_entry in Hpark. }
  destruct (reentrant (lock s)) eqn:Hr.
  2:{ by rewrite (park_vehicle_blocks _ _ _ veh) in Hpark. }
  assert (frame s s1) as Hframe by (apply (park_vehicle_frame v now); by rewrite Hpark).
  pose proof (frame_wf _ _ Hframe Hwf) as [_ _ Hn1 _].
  rewrite (park_vehicle_reentrant _ _ _ veh) in Hpark by done.
  destruct (first_available _ _) as [i|] eqn:Hf; [|done].
  destruct (first_available_slots_get _ _ _ Hf) as (lst & sl & Hl & Hi & Hs).
  destruct (dict_get _ (total_slots s)) as [total|]; [|done].
  case_bool_decide; [done|]. simplify_eq.
  set (vt := vehicle_type veh) in *.
  assert (slots_get vt (parked (vt, i) v now s) = alter (occupy v now) i lst) as Hget.
  { by apply (slots_get_parked _ _ _ _ _ lst sl). }
  assert (dict_get vt (slots (parked (vt, i) v now s)) = Some (alter (occupy v now) i lst)) as Hl1.
  { unfold parked, read_slot. cbn [fst snd]. rewrite Hl. simpl. rewrite Hi. simpl.
    by rewrite dict_get_alter, decide_True, Hl. }
  assert (alter (occupy v now) i lst !! i = Some (occupy v now sl)) as Hi1.
  { by rewrite list_lookup_alter_eq, Hi. }
  assert (heap (parked (vt, i) v now s)
          = alter (set_parking_slot_id (Some (slot_id sl))) v (heap s)) as Hheap.
  { unfold parked, read_slot. cbn [fst snd]. rewrite Hl. simpl. by rewrite Hi. }
  destruct (remove_vehicle_by_name (parked (vt, i) v now s) vt i
              (alter (occupy v now) i lst) (occupy v now sl))
    as (s2 & Hrem & Hh2 & _ & Hget2); try done.
  { right. destruct Hframe as (_ & _ & ->). done. }
  exists (occupy v now sl), veh, s2.
  split. { unfold read_slot. cbn [fst snd]. rewrite Hl1. simpl. done. }
  split; [done|]. split; [done|].
  split. { rewrite Hheap, list_lookup_alter_eq, Hv. done. }
  split; [done|]. split; [done|].
  split. { rewrite Hh2, Hheap, list_lookup_alter_eq, Hv. done. }
  unfold read_slot. cbn [fst snd]. unfold slots_get in Hget2.
  destruct (dict_get vt (slots s2)) as [l2|] eqn:Hl2; simpl in *.
  - subst l2. by rewrite list_lookup_alter_eq, Hi1.
  - exfalso. apply (f_equal length) in Hget2. rewrite !length_alter in Hget2.
    apply lookup_lt_Some in Hi. simpl in Hget2. lia.
Qed.

(** Behind a re-entrant lock, the same vehicle parked twice and the first
    slot released: the vehicle that comes back carries the identifier of
    the second slot, which it still occupies. *)
Lemma release_after_second_park :
  let s1 := default two_car_lot_rlock (after (Park 0%nat 100%Q) two_car_lot_rlock) in
  let s2 := default s1 (after (Park 0%nat 200%Q) s1) in
  let s3 := default s2 (after (Remove "CAR_SLOT_1") s2) in
  park_vehicle 0%nat 100%Q two_car_lot_rlock = Returned (Some (CAR, 0%nat)) s1 ∧
  park_vehicle 0%nat 200%Q s1 = Returned (Some (CAR, 1%nat)) s2 ∧
  remove_vehicle "CAR_SLOT_1" s2 = Returned (Some 0%nat) s3 ∧
  (parking_slot_id <$> heap s3 !! 0%nat) = Some (Some "CAR_SLOT_2") ∧
  (status <$> read_slot (CAR, 1%nat) s3) = Some OCCUPIED ∧
  (vehicle <$> read_slot (CAR, 1%nat) s3) = Some (Some 0%nat).
Proof. vm_compute. repeat split. Qed.

(** ** Further properties of the pool *)

Lemma pool_step_get vt d d' :
  pool_step d d' →
  match dict_get vt d, dict_get vt d' with
  | Some l, Some l' => Forall2 slot_step l l'
  | None, None => True
  | _, _ => False
  end.
Proof.
  induction 1 as [|[k l] [k' l'] d d' [Hk Hl] _ IH]; simpl in *; [done|].
  subst k'. by case_decide.
Qed.

Lemma slot_steps_ids l l' : Forall2 slot_step l l' → slot_id <$> l' = slot_id <$> l.
Proof.
  induction 1 as [|x x' l l' Hx _ IH]; [done|].
  by rewrite !fmap_cons, IH, (slot_step_id _ _ Hx).
Qed.

Lemma frame_ids vt s s' :
  frame s s' → slot_id <$> slots_get vt s' = slot_id <$> slots_get vt s.
Proof.
  intros (Hp & _). pose proof (pool_step_get vt _ _ Hp) as Hg. unfold slots_get.
  destruct (dict_get vt (slots s)), (dict_get vt (slots s')); simpl; try done.
  by apply slot_steps_ids.
Qed.

Lemma reachable_ids vt s0 s :
  reachable s0 s →
  (slots s).*1 = (slots s0).*1 ∧
  slot_id <$> slots_get vt s = slot_id <$> slots_get vt s0.
Proof.
  induction 1 as [|s c s' _ [IH1 IH2] Hc|s veh _ IH]; [done| |done].
  apply after_frame in Hc. split.
  - destruct Hc as (Hp & _). by rewrite (pool_step_keys _ _ Hp).
  - by rewrite (frame_ids vt _ _ Hc).
Qed.

(** X1. Slot identities are fixed at initialisation: in every reachable
    state the keys of the pool and, under every key, the sequence of slot
    identifiers are those of the initial state (no slot is ever created or
    destroyed); the slot at index [i] under [vt] is named from [vt] and
    [i + 1], and two slots of the pool with the same identifier are the same
    slot. *)
Theorem slot_identities l slot_config h s vt lst i sl :
  reachable (manager_with l slot_config h) s →
  dict_get vt (slots s) = Some lst → lst !! i = Some sl →
  (slots s).*1 = (slots (manager_with l slot_config h)).*1 ∧
  slot_id <$> lst = slot_id <$> slots_get vt (manager_with l slot_config h) ∧
  slot_id sl = slot_name vt (Z.of_nat i) ∧
  (∀ vt' lst' j sl',
     dict_get vt' (slots s) = Some lst' → lst' !! j = Some sl' →
     slot_id sl' = slot_id sl → vt' = vt ∧ j = i).
Proof.
  intros Hreach Hl Hi.
  pose proof (reachable_wf _ _ (manager_with_wf l slot_config h) Hreach) as [_ _ Hn _].
  destruct (reachable_ids vt _ _ Hreach) as [Hkeys Hids].
  unfold named in Hn. rewrite Forall_forall in Hn.
  assert (∀ k l0 j x, dict_get k (slots s) = Some l0 → l0 !! j = Some x →
                      slot_id x = slot_name k (Z.of_nat j)) as Hname.
  { intros k l0 j x Hk Hj. apply (Hn (k, l0)); [|done]. by apply dict_get_elem_of. }
  split; [done|]. split.
  { rewrite <- Hids. unfold slots_get. by rewrite Hl. }
  split; [by apply (Hname vt lst)|].
  intros vt' lst' j sl' Hl' Hj Heq.
  rewrite (Hname _ _ _ _ Hl' Hj), (Hname _ _ _ _ Hl Hi) in Heq.
  apply slot_name_inj in Heq as [-> Hij]. split; [done|lia].
Qed.

Lemma slot_identities_witness :
  (slots one_car_lot_taken).*1 = (slots one_car_lot_rlock).*1 ∧
  slot_id <$> [occupy 0%nat 100%Q (ParkingSlot_init "CAR_SLOT_1" CAR)]
  = slot_id <$> slots_get CAR one_car_lot_rlock ∧
  slot_id (occupy 0%nat 100%Q (ParkingSlot_init "CAR_SLOT_1" CAR))
  = slot_name CAR (Z.of_nat 0) ∧
  (∀ vt' lst' j sl',
     dict_get vt' (slots one_car_lot_taken) = Some lst' → lst' !! j = Some sl' →
     slot_id sl' = slot_id (occupy 0%nat 100%Q (ParkingSlot_init "CAR_SLOT_1" CAR)) →
     vt' = CAR ∧ j = 0%nat).
Proof.
  apply (slot_identities threading_RLock [(CAR, 1)] [car_A; car_B; bike_C]
           one_car_lot_taken CAR
           [occupy 0%nat 100%Q (ParkingSlot_init "CAR_SLOT_1" CAR)] 0%nat).
  - exact one_car_lot_taken_reachable.
  - reflexivity.
  - reflexivity.
Defined.

Lemma sized_lookup_slots d t vt l :
  sized d t → dict_get vt d = Some l →
  ∃ cap, dict_get vt t = Some cap ∧ length l = Z.to_nat cap.
Proof.
  induction 1 as [|[k0 l0] [k1 c1] d t [Hk Hlen] _ IH]; simpl in *; [done|].
  subst k1. case_decide.
  - intros [= <-]. eauto.
  - auto.
Qed.

Lemma occupied_count_lt_length l i sl :
  l !! i = Some sl → status sl ≠ OCCUPIED → occupied_count l < Z.of_nat (length l).
Proof.
  intros Hi Hs.
  pose proof (occupied_count_alter (set_status OCCUPIED) i l sl Hi) as Hc.
  pose proof (occupied_count_le_length (alter (set_status OCCUPIED) i l)) as Hle.
  rewrite length_alter in Hle. rewrite decide_False, decide_True in Hc by done. lia.
Qed.

(** X2. In every reachable state in which the scan of [park_vehicle] finds
    an AVAILABLE slot, the capacity of the category is recorded (the lookup
    in [total_slots] cannot raise) and the number of OCCUPIED slots is below
    it: the full-lot test after the scan never sends the call away. *)
Theorem capacity_test_never_fires l slot_config h s vt i :
  reachable (manager_with l slot_config h) s →
  first_available (slots_get vt s) 0 = Some i →
  ∃ total, dict_get vt (total_slots s) = Some total ∧
           bool_decide (total ≤ occupied_count (slots_get vt s)) = false.
Proof.
  intros Hreach Hf.
  pose proof (reachable_wf _ _ (manager_with_wf l slot_config h) Hreach) as [_ Hsz _ _].
  destruct (first_available_slots_get _ _ _ Hf) as (lst & sl & Hl & Hi & Hs).
  destruct (sized_lookup_slots _ _ _ _ Hsz Hl) as (cap & Hcap & Hlen).
  exists cap. split; [done|]. apply bool_decide_eq_false.
  unfold slots_get. rewrite Hl. simpl.
  assert (occupied_count lst < Z.of_nat (length lst)) as Hlt.
  { apply (occupied_count_lt_length lst i sl); [done|]. by rewrite Hs. }
  unfold occupied_count in *. lia.
Qed.

Lemma capacity_test_never_fires_witness :
  ∃ total, dict_get CAR (total_slots one_car_lot) = Some total ∧
           bool_decide (total ≤ occupied_count (slots_get CAR one_car_lot)) = false.
Proof.
  apply (capacity_test_never_fires threading_Lock [(CAR, 1)] [car_A; car_B; bike_C]
           one_car_lot CAR 0%nat).
  - apply reach_init.
  - reflexivity.
Defined.

Lemma taken_lot_named t : named (slots (taken_lot t)).
Proof.
  repeat constructor. intros [|[|i]] sl; simpl; [|done..]. by intros [= <-].
Qed.

(** X3. In every state whose slots carry the identifiers of
    initialisation, with the lock free, releasing an OCCUPIED slot by its
    identifier returns its occupant, lowers the number of OCCUPIED slots of
    its category by exactly one and changes no vehicle record. *)
Theorem remove_vehicle_frees_one s vt lst i sl :
  named (slots s) →
  may_enter (lock s) →
  dict_get vt (slots s) = Some lst → lst !! i = Some sl → status sl = OCCUPIED →
  ∃ s', remove_vehicle (slot_id sl) s = Returned (vehicle sl) s' ∧
        occupied_count (slots_get vt s') = occupied_count (slots_get vt s) - 1 ∧
        heap s' = heap s.
Proof.
  intros Hn He Hl Hi Hs.
  destruct (remove_vehicle_by_name s vt i lst sl Hn He Hl Hi Hs)
    as (s' & Hrem & Hheap & _ & Hget).
  exists s'. split; [done|]. split; [|done].
  rewrite Hget, (occupied_count_alter _ _ _ sl Hi).
  unfold slots_get. rewrite Hl. simpl. rewrite Hs. simpl. lia.
Qed.

Lemma remove_vehicle_frees_one_witness :
  ∃ s', remove_vehicle "CAR_SLOT_1" (taken_lot 100) = Returned (Some 0%nat) s' ∧
        occupied_count (slots_get CAR s') = occupied_count (slots_get CAR (taken_lot 100)) - 1 ∧
        heap s' = heap (taken_lot 100).
Proof.
  apply (remove_vehicle_frees_one (taken_lot 100) CAR
           [occupy 0%nat 100%Q (ParkingSlot_init "CAR_SLOT_1" CAR)] 0%nat
           (occupy 0%nat 100%Q (ParkingSlot_init "CAR_SLOT_1" CAR))).
  - apply taken_lot_named.
  - by left.
  - reflexivity.
  - reflexivity.
  - reflexivity.
Defined.

(** * Properties of the front end and of the manager behind it *)

(** ** The front end: what every action keeps *)

Lemma io_bind_done {A B} (m : IO A) (k : A → IO B) w a w' :
  m w = Done a w' → io_bind m k w = k a w'.
Proof. unfold io_bind. by intros ->. Qed.

Lemma fueled_ret {A} (a : A) : fueled (io_ret a).
Proof. by intros w. Qed.

Lemma fueled_bind {A B} (m : IO A) (k : A → IO B) :
  fueled m → (∀ a, fueled (k a)) → fueled (io_bind m k).
Proof.
  intros Hm Hk w. unfold io_bind. specialize (Hm w).
  destruct (m w) as [a w'| | |]; try done. apply Hk.
Qed.

Lemma fueled_from_option {A} e (o : option A) : fueled (io_from_option e o).
Proof. by destruct o. Qed.

Lemma fueled_for_each {A} (l : list A) (body : A → IO unit) :
  (∀ x, fueled (body x)) → fueled (for_each l body).
Proof.
  intros Hb. induction l as [|x l IH]; simpl; [apply fueled_ret|].
  apply fueled_bind; auto.
Qed.

Lemma fueled_input p : fueled (input p).
Proof. intros w. unfold input. simpl. by destruct (stdin w). Qed.

Lemma fueled_call_manager {A} (m : M A) : fueled (call_manager m).
Proof. intros w. unfold call_manager. by destruct (m (parking_lot w)). Qed.

Create HintDb fueled.
#[local] Hint Resolve fueled_ret fueled_bind fueled_from_option fueled_for_each
  fueled_input fueled_call_manager : fueled.

Ltac fueled_tac :=
  repeat first
    [ apply fueled_bind; [|intros ?]
    | apply fueled_for_each; intros ?
    | apply fueled_ret | apply fueled_from_option | apply fueled_input
    | apply fueled_call_manager
    | (intros ?; done)
    | match goal with
      | |- fueled (match ?x with _ => _ end) => destruct x
      | |- fueled (if ?x then _ else _) => destruct x
      end ].

Lemma fueled_park_vehicle env : fueled (SmartParkingSystem.park_vehicle env).
Proof.
  unfold SmartParkingSystem.park_vehicle, call_park_vehicle, read_vehicle, read_user,
    print, io_gets, io_modify.
  fueled_tac.
Qed.

Lemma fueled_register_user env : fueled (SmartParkingSystem.register_user env).
Proof.
  unfold SmartParkingSystem.register_user, register_user, User_init, draw_uuid,
    read_user, print, io_gets, io_modify.
  fueled_tac.
Qed.

Lemma fueled_add_vehicle env : fueled (SmartParkingSystem.add_vehicle env).
Proof.
  unfold SmartParkingSystem.add_vehicle, Vehicle_init, User_add_vehicle, draw_uuid,
    read_time, read_user, print, io_gets, io_modify.
  fueled_tac.
Qed.

Lemma fueled_list_parked_vehicles : fueled SmartParkingSystem.list_parked_vehicles.
Proof.
  unfold SmartParkingSystem.list_parked_vehicles, read_vehicle, print, io_gets, io_modify.
  fueled_tac.
Qed.

Lemma fueled_exit_vehicle env : fueled (SmartParkingSystem.exit_vehicle env).
Proof.
  unfold SmartParkingSystem.exit_vehicle.
  apply fueled_bind; [apply fueled_list_parked_vehicles|intros _].
  unfold read_vehicle, read_time, print, io_gets, io_modify.
  fueled_tac.
Qed.

Section Preservation.
Variable I : World → Prop.
Variable J : list Out → Prop.
Variable fee_possible : Prop.

Hypothesis I_line : ∀ w s, I w → I (set_stdout (stdout w ++ [Line s]) w).
Hypothesis I_prompt : ∀ w s, I w → I (set_stdout (stdout w ++ [Prompt s]) w).
Hypothesis I_fee : fee_possible →
    ∀ w plate fee, I w → I (set_stdout (stdout w ++ [FeeLine plate fee]) w).
Hypothesis I_stdin : ∀ w line rest, stdin w = line :: rest → I w → I (set_stdin rest w).
Hypothesis I_users : ∀ w x, I w → I (set_users x w).
Hypothesis I_user_heap : ∀ w x, I w → I (set_user_heap x w).
Hypothesis I_current_user : ∀ w x, I w → I (set_current_user x w).
Hypothesis I_uuids_drawn : ∀ w x, I w → I (set_uuids_drawn x w).
Hypothesis I_times_read : ∀ w x, I w → I (set_times_read x w).
Hypothesis I_heap : ∀ w h, I w → I (set_parking_lot (set_heap h (parking_lot w)) w).
Hypothesis I_call : ∀ w c s, I w → after c (parking_lot w) = Some s →
                                I (set_parking_lot s w).
Hypothesis I_removed : ∀ w sid v s, I w →
    remove_vehicle sid (parking_lot w) = Returned (Some v) s → fee_possible.
Hypothesis I_hang : ∀ w, I w → J (stdout w).

Lemma preserves_ret {A} (a : A) : preserves I J (io_ret a).
Proof. by intros w. Qed.

Lemma preserves_raise {A} e : preserves I J (@io_raise A e).
Proof. by intros w. Qed.

Lemma preserves_bind {A B} (m : IO A) (k : A → IO B) :
  preserves I J m → (∀ a, preserves I J (k a)) → preserves I J (io_bind m k).
Proof.
  intros Hm Hk w Hw. unfold io_bind. specialize (Hm w Hw).
  destruct (m w) as [a w'| | |]; try done. by apply Hk.
Qed.

Lemma preserves_gets {A} (f : World → A) : preserves I J (io_gets f).
Proof. by intros w. Qed.

Lemma preserves_from_option {A} e (o : option A) : preserves I J (io_from_option e o).
Proof. destruct o; [apply preserves_ret|apply preserves_raise]. Qed.

Lemma preserves_for_each {A} (l : list A) (body : A → IO unit) :
  (∀ x, preserves I J (body x)) → preserves I J (for_each l body).
Proof.
  intros Hb. induction l as [|x l IH]; simpl; [apply preserves_ret|].
  apply preserves_bind; auto.
Qed.

Lemma preserves_print s : preserves I J (print s).
Proof. intros w Hw. simpl. by apply I_line. Qed.

Lemma preserves_input p : preserves I J (input p).
Proof.
  intros w Hw. unfold input. simpl.
  destruct (stdin w) as [|line rest] eqn:Hin; [by apply I_prompt|].
  apply (I_stdin _ line); [done|]. by apply I_prompt.
Qed.

Lemma preserves_read_user u : preserves I J (read_user u).
Proof.
  apply preserves_bind; [apply preserves_gets|intros o; apply preserves_from_option].
Qed.

Lemma preserves_read_vehicle v : preserves I J (read_vehicle v).
Proof.
  apply preserves_bind; [apply preserves_gets|intros o; apply preserves_from_option].
Qed.

Lemma preserves_draw_uuid env : preserves I J (draw_uuid env).
Proof. intros w Hw. simpl. by apply I_uuids_drawn. Qed.

Lemma preserves_read_time env : preserves I J (read_time env).
Proof. intros w Hw. simpl. by apply I_times_read. Qed.

Lemma preserves_call_manager_park v now :
  preserves I J (call_manager (park_vehicle v now)).
Proof.
  intros w Hw. unfold call_manager.
  destruct (park_vehicle v now (parking_lot w)) as [a s|e s|] eqn:Hp.
  - apply (I_call w (Park v now)); [done|]. simpl. by rewrite Hp.
  - apply (I_call w (Park v now)); [done|]. simpl. by rewrite Hp.
  - by apply I_hang.
Qed.

Lemma preserves_call_manager_remove sid :
  preserves I J (call_manager (remove_vehicle sid)).
Proof.
  intros w Hw. unfold call_manager.
  destruct (remove_vehicle sid (parking_lot w)) as [a s|e s|] eqn:Hp.
  - apply (I_call w (Remove sid)); [done|]. simpl. by rewrite Hp.
  - apply (I_call w (Remove sid)); [done|]. simpl. by rewrite Hp.
  - by apply I_hang.
Qed.

Ltac preserves_tac :=
  repeat first
    [ apply preserves_input | apply preserves_print | apply preserves_read_user
    | apply preserves_read_vehicle | apply preserves_draw_uuid
    | apply preserves_read_time | apply preserves_call_manager_park
    | apply preserves_call_manager_remove | apply preserves_gets
    | apply preserves_from_option | apply preserves_ret
    | apply preserves_for_each; intros ?
    | apply preserves_bind; [|intros ?]
    | match goal with
      | |- preserves _ _ (match ?x with _ => _ end) => destruct x
      | |- preserves _ _ (if ?x then _ else _) => destruct x
      end ];
  try (intros ? ?; simpl; auto).

Lemma preserves_register_user env : preserves I J (SmartParkingSystem.register_user env).
Proof.
  unfold SmartParkingSystem.register_user, register_user, User_init. preserves_tac.
Qed.

Lemma preserves_add_vehicle env : preserves I J (SmartParkingSystem.add_vehicle env).
Proof.
  unfold SmartParkingSystem.add_vehicle, Vehicle_init, User_add_vehicle. preserves_tac.
Qed.

Lemma preserves_park_vehicle env : preserves I J (SmartParkingSystem.park_vehicle env).
Proof.
  unfold SmartParkingSystem.park_vehicle, call_park_vehicle. preserves_tac.
Qed.

Lemma preserves_list_parked_vehicles : preserves I J SmartParkingSystem.list_parked_vehicles.
Proof. unfold SmartParkingSystem.list_parked_vehicles. preserves_tac. Qed.

Lemma preserves_report_fee env v :
  fee_possible →
  preserves I J
    (let! now := read_time env in
     let! veh := read_vehicle v in
     io_modify (λ w, set_stdout
                       (stdout w ++ [FeeLine (license_plate veh) (get_parking_fee now veh)]) w)).
Proof.
  intros Hfee. preserves_tac.
Qed.

Lemma preserves_exit_vehicle env : preserves I J (SmartParkingSystem.exit_vehicle env).
Proof.
  unfold SmartParkingSystem.exit_vehicle.
  apply preserves_bind; [apply preserves_list_parked_vehicles|intros _].
  apply preserves_bind; [apply preserves_input|intros sid].
  intros w Hw. unfold io_bind at 1.
  pose proof (preserves_call_manager_remove sid w Hw) as Hcall.
  unfold call_manager in *.
  destruct (remove_vehicle sid (parking_lot w)) as [[v|] s|e s|] eqn:Hrem; try done.
  - apply (preserves_report_fee env v); [|done]. by apply (I_removed w sid v s).
  - by apply preserves_print.
Qed.

Lemma preserves_print_menu : preserves I J SmartParkingSystem.print_menu.
Proof. unfold SmartParkingSystem.print_menu. preserves_tac. Qed.

Lemma preserves_menu_loop env fuel : preserves I J (SmartParkingSystem.menu_loop env fuel).
Proof.
  induction fuel as [|fuel IH]; simpl; [by intros w|].
  apply preserves_bind; [apply preserves_print_menu|intros _].
  apply preserves_bind; [apply preserves_input|intros choice].
  repeat case_decide;
    first [ apply preserves_ret
          | apply preserves_bind; [|intros _; apply IH] ];
    first [ apply preserves_register_user | apply preserves_add_vehicle
          | apply preserves_park_vehicle | apply preserves_list_parked_vehicles
          | apply preserves_exit_vehicle | apply preserves_print ].
Qed.
End Preservation.


(** ** Input is only consumed *)

Ltac stdin_within_tac :=
  unfold stdin_within; try done; intros; simpl in *;
  try match goal with
      | H : stdin ?w = _ :: _, H' : stdin ?w `suffix_of` _ |- _ =>
          rewrite H in H'; by eapply suffix_cons_l
      end; try done.

Lemma register_user_stdin env l0 :
  preserves (stdin_within l0) (λ _, True) (SmartParkingSystem.register_user env).
Proof. apply preserves_register_user; stdin_within_tac. Qed.

Lemma add_vehicle_stdin env l0 :
  preserves (stdin_within l0) (λ _, True) (SmartParkingSystem.add_vehicle env).
Proof. apply preserves_add_vehicle; stdin_within_tac. Qed.

Lemma park_vehicle_stdin env l0 :
  preserves (stdin_within l0) (λ _, True) (SmartParkingSystem.park_vehicle env).
Proof. apply preserves_park_vehicle; stdin_within_tac. Qed.

Lemma list_parked_vehicles_stdin l0 :
  preserves (stdin_within l0) (λ _, True) SmartParkingSystem.list_parked_vehicles.
Proof. apply preserves_list_parked_vehicles; stdin_within_tac. Qed.

Lemma exit_vehicle_stdin env l0 :
  preserves (stdin_within l0) (λ _, True) (SmartParkingSystem.exit_vehicle env).
Proof. apply (preserves_exit_vehicle _ _ True); stdin_within_tac. Qed.

Lemma menu_loop_stdin env fuel l0 :
  preserves (stdin_within l0) (λ _, True) (SmartParkingSystem.menu_loop env fuel).
Proof. apply (preserves_menu_loop _ _ True); stdin_within_tac. Qed.


(** ** With the lock of the constructor nothing is ever parked *)

Lemma no_fee_app out o :
  no_fee out → match o with FeeLine _ _ => False | _ => True end → no_fee (out ++ [o]).
Proof. intros Ho Hx. apply Forall_app. split; [done|]. by constructor. Qed.

Ltac idle_tac :=
  try done; intros; simpl in *;
  repeat match goal with
         | H : idle _ _ _ |- _ => destruct H as (? & ? & ? & ?)
         end;
  try (split; [|split; [|split]]); simpl; try done;
  try (by apply no_fee_app).

Lemma menu_loop_idle env fuel d0 t0 :
  all_vacant d0 →
  preserves (idle d0 t0) no_fee (SmartParkingSystem.menu_loop env fuel).
Proof.
  intros Hvac. apply (preserves_menu_loop _ _ False).
  - idle_tac.
  - idle_tac.
  - idle_tac.
  - idle_tac.
  - idle_tac.
  - idle_tac.
  - idle_tac.
  - idle_tac.
  - idle_tac.
  - idle_tac.
  - intros w c s (Hl & Hd & Ht & Hout) Hc.
    rewrite (vacant_after c _ s Hl) by (by rewrite ?Hd). by destruct w.
  - intros w sid v s (Hl & Hd & Ht & Hout) Hrem.
    apply (vacant_remove sid (parking_lot w) v s); [done| |done]. by rewrite Hd.
  - idle_tac.
Qed.

(** ** The menu ends *)

Lemma stdin_length_le l0 w : stdin_within l0 w → (length (stdin w) ≤ length l0)%nat.
Proof. intros [k ->]. rewrite length_app. lia. Qed.

Lemma menu_loop_fueled env fuel w :
  (length (stdin w) < fuel)%nat → SmartParkingSystem.menu_loop env fuel w ≠ OutOfFuel.
Proof.
  revert w. induction fuel as [|fuel IH]; intros w Hlen; [lia|].
  cbn [SmartParkingSystem.menu_loop].
  assert (∀ (a : IO unit) w1,
            fueled a → preserves (stdin_within (stdin w1)) (λ _, True) a →
            (length (stdin w1) < fuel)%nat →
            io_bind a (λ _, SmartParkingSystem.menu_loop env fuel) w1 ≠ OutOfFuel) as Hturn.
  { intros a w1 Ha Hpre Hw1. unfold io_bind.
    specialize (Ha w1).
    assert (stdin_within (stdin w1) w1) as Hrefl by (by exists []).
    specialize (Hpre w1 Hrefl).
    destruct (a w1) as [[] w2| | |]; try done.
    apply IH. apply stdin_length_le in Hpre. lia. }
  unfold io_bind at 1.
  destruct (SmartParkingSystem.print_menu w) as [[] w0| | |] eqn:Hmenu; try done.
  injection Hmenu as <-.
  unfold io_bind at 1. unfold input. simpl.
  destruct (stdin w) as [|choice rest] eqn:Hin; [done|].
  simpl in Hlen.
  repeat case_decide; try done; apply Hturn; simpl; try lia.
  all: first [ apply fueled_register_user | apply fueled_add_vehicle
             | apply fueled_park_vehicle | apply fueled_list_parked_vehicles
             | apply fueled_exit_vehicle | (intros ?; done)
             | apply register_user_stdin | apply add_vehicle_stdin
             | apply park_vehicle_stdin | apply list_parked_vehicles_stdin
             | apply exit_vehicle_stdin | idtac ].
  all: try (intros w1 Hw1; simpl; done).
Qed.


(** ** The run of the program *)

Lemma menu_turn_done env fuel (a : IO unit) choice rest w1 w' :
  (∀ w, SmartParkingSystem.menu_loop env fuel w = Done tt w' →
        "6" ∈ stdin w ∧ stdin w' `suffix_of` stdin w) →
  (∀ l0, preserves (stdin_within l0) (λ _, True) a) →
  stdin w1 = rest →
  io_bind a (λ _, SmartParkingSystem.menu_loop env fuel) w1 = Done tt w' →
  "6" ∈ choice :: rest ∧ stdin w' `suffix_of` choice :: rest.
Proof.
  intros IH Hpre <-. unfold io_bind.
  assert (stdin_within (stdin w1) w1) as Hrefl by (by exists []).
  specialize (Hpre _ w1 Hrefl).
  destruct (a w1) as [[] w2| | |]; try done.
  intros Hloop. destruct (IH _ Hloop) as [H6 Hsuf]. unfold stdin_within in Hpre.
  split.
  - apply list_elem_of_further. destruct Hpre as [k ->]. apply elem_of_app. by right.
  - apply suffix_cons_r. by etrans.
Qed.

Lemma menu_loop_done env fuel w w' :
  SmartParkingSystem.menu_loop env fuel w = Done tt w' →
  "6" ∈ stdin w ∧ stdin w' `suffix_of` stdin w.
Proof.
  revert w. induction fuel as [|fuel IH]; intros w; [done|].
  cbn [SmartParkingSystem.menu_loop].
  unfold io_bind at 1.
  destruct (SmartParkingSystem.print_menu w) as [[] w0| | |] eqn:Hmenu; try done.
  assert (stdin w0 = stdin w) as Hw0 by (injection Hmenu as <-; done).
  clear Hmenu.
  unfold io_bind at 1. unfold input. cbv zeta. simpl (stdin (set_stdout _ _)). rewrite Hw0.
  destruct (stdin w) as [|choice rest] eqn:Hin; [done|].
  repeat case_decide.
  - apply (menu_turn_done env fuel _ choice rest); [exact IH| |done].
    intros l0. apply register_user_stdin.
  - apply (menu_turn_done env fuel _ choice rest); [exact IH| |done].
    intros l0. apply add_vehicle_stdin.
  - apply (menu_turn_done env fuel _ choice rest); [exact IH| |done].
    intros l0. apply park_vehicle_stdin.
  - apply (menu_turn_done env fuel _ choice rest); [exact IH| |done].
    intros l0. apply list_parked_vehicles_stdin.
  - apply (menu_turn_done env fuel _ choice rest); [exact IH| |done].
    intros l0. apply exit_vehicle_stdin.
  - intros [= <-]. subst choice. simpl. split; [apply list_elem_of_here|].
    by apply suffix_cons_r.
  - apply (menu_turn_done env fuel _ choice rest); [exact IH| |done].
    intros l0 w1 Hw1. simpl. done.
Qed.

Lemma io_bind_ext {A B} (m : IO A) (k k' : A → IO B) w :
  (∀ a w', m w = Done a w' → k a w' = k' a w') → io_bind m k w = io_bind m k' w.
Proof. intros Hk. unfold io_bind. destruct (m w); auto. Qed.

Lemma menu_loop_fuel env fuel fuel' w :
  (length (stdin w) < fuel)%nat → (length (stdin w) < fuel')%nat →
  SmartParkingSystem.menu_loop env fuel w = SmartParkingSystem.menu_loop env fuel' w.
Proof.
  revert fuel' w. induction fuel as [|fuel IH]; intros [|fuel'] w Hlen Hlen'; try lia.
  cbn [SmartParkingSystem.menu_loop].
  assert (∀ (a : IO unit) w1,
            preserves (stdin_within (stdin w1)) (λ _, True) a →
            (length (stdin w1) < fuel)%nat → (length (stdin w1) < fuel')%nat →
            io_bind a (λ _, SmartParkingSystem.menu_loop env fuel) w1 =
            io_bind a (λ _, SmartParkingSystem.menu_loop env fuel') w1) as Hturn.
  { intros a w1 Hpre Hw1 Hw1'. apply io_bind_ext. intros [] w2 Ha.
    assert (stdin_within (stdin w1) w1) as Hrefl by (by exists []).
    specialize (Hpre w1 Hrefl). rewrite Ha in Hpre.
    apply stdin_length_le in Hpre. apply IH; lia. }
  apply io_bind_ext. intros [] w0 Hmenu.
  assert (stdin w0 = stdin w) as Hw0 by (injection Hmenu as <-; done).
  apply io_bind_ext. intros choice w1. unfold input. cbv zeta.
  simpl (stdin (set_stdout _ _)). rewrite Hw0.
  destruct (stdin w) as [|c rest] eqn:Hin; [done|].
  intros [= -> <-]. simpl in Hlen, Hlen'.
  repeat case_decide; try done; apply Hturn; simpl; try lia.
  all: first [ apply register_user_stdin | apply add_vehicle_stdin
             | apply park_vehicle_stdin | apply list_parked_vehicles_stdin
             | apply exit_vehicle_stdin | idtac ].
  all: try (intros w1 Hw1; simpl; done).
Qed.

(** X9. On every world the menu loop ends: it returns, raises or blocks,
    and the model never runs out of fuel; any larger bound on the number of
    turns gives the same result. It returns only when the line "6" is
    among the lines that were still to be read, and the lines left when it
    returns are a tail of those. *)
Theorem run_interactive_menu_ends env w :
  SmartParkingSystem.run_interactive_menu env w ≠ OutOfFuel ∧
  (∀ fuel, (length (stdin w) < fuel)%nat →
           SmartParkingSystem.menu_loop env fuel w =
           SmartParkingSystem.run_interactive_menu env w) ∧
  (∀ w', SmartParkingSystem.run_interactive_menu env w = Done tt w' →
         "6" ∈ stdin w ∧ stdin w' `suffix_of` stdin w).
Proof.
  unfold SmartParkingSystem.run_interactive_menu. split_and!.
  - apply menu_loop_fueled. lia.
  - intros fuel Hfuel. apply menu_loop_fuel; lia.
  - intros w'. apply menu_loop_done.
Qed.

(** X10. Whatever the configuration and whatever is typed, the program as
    written never parks a vehicle and never reports a fee: when the menu
    returns or raises, the slots and the capacities are those that the
    constructor built, every slot is still AVAILABLE without occupant, and
    no fee line has been printed; when it blocks, no fee line has been
    printed either. *)
Theorem run_never_parks env slot_config lines :
  let w0 := SmartParkingSystem.init slot_config lines in
  match SmartParkingSystem.run_interactive_menu env w0 with
  | Done _ w' | Error _ w' =>
      slots (parking_lot w') = slots (parking_lot w0) ∧
      total_slots (parking_lot w') = total_slots (parking_lot w0) ∧
      all_vacant (slots (parking_lot w')) ∧
      no_fee (stdout w')
  | Hang out => no_fee out
  | OutOfFuel => False
  end.
Proof.
  intros w0.
  pose proof (manager_with_vacant threading_Lock slot_config []) as Hvac.
  assert (idle (slots (parking_lot w0)) (total_slots (parking_lot w0)) w0) as Hidle.
  { split; [|split; [done|split; [done|constructor]]].
    unfold w0. simpl. unfold ParkingLotManager_init. by rewrite manager_with_lock. }
  pose proof (menu_loop_idle env (S (length (stdin w0))) _ _ Hvac w0 Hidle) as Hrun.
  pose proof (menu_loop_fueled env (S (length (stdin w0))) w0 (Nat.lt_succ_diag_r _)) as Hfuel.
  unfold SmartParkingSystem.run_interactive_menu.
  destruct (SmartParkingSystem.menu_loop env (S (length (stdin w0))) w0) as [[] w'|e w'|out|];
    try done.
  - destruct Hrun as (_ & Hd & Ht & Hout). rewrite Hd. done.
  - destruct Hrun as (_ & Hd & Ht & Hout). rewrite Hd. done.
Qed.


(** ** The actions of the menu *)

Lemma lookup_snoc_length {A} (l : list A) (x : A) : (l ++ [x]) !! length l = Some x.
Proof. rewrite lookup_app_r by lia. by rewrite Nat.sub_diag. Qed.

(** X11. [register_user] reads a name and a contact, makes a user with a
    freshly drawn id and no vehicle, files it under that id (the other ids
    keep what they had) and makes it the current user; the users made
    before and the lot are left as they were. *)
Theorem register_user_registers env w nm ct rest :
  stdin w = nm :: ct :: rest →
  let uid := uuid4 env (uuids_drawn w) in
  let u := length (user_heap w) in
  ∃ w', SmartParkingSystem.register_user env w = Done tt w' ∧
        current_user w' = Some u ∧
        user_heap w' = user_heap w ++ [mkUser uid nm ct []] ∧
        dict_get uid (users w') = Some u ∧
        (∀ k, k ≠ uid → dict_get k (users w') = dict_get k (users w)) ∧
        parking_lot w' = parking_lot w ∧
        stdin w' = rest ∧
        stdout w' = stdout w ++
                    [Prompt "Enter user name: "; Prompt "Enter contact number: ";
                     Line ("User " +:+ nm +:+ " registered with ID: " +:+ uid)].
Proof.
  intros Hin uid u. destruct w as [lot us uh cu inp out nu nt]. simpl in *. subst inp.
  unfold SmartParkingSystem.register_user, register_user, User_init, read_user, draw_uuid,
    print, input, io_bind, io_gets, io_modify, io_from_option, io_ret. simpl.
  rewrite lookup_snoc_length. simpl. rewrite lookup_snoc_length. simpl.
  eexists. split; [reflexivity|]. simpl.
  repeat split.
  - rewrite dict_get_set. by rewrite decide_True.
  - intros k Hk. rewrite dict_get_set. by rewrite decide_False.
  - by rewrite <- !app_assoc.
Qed.

Lemma register_user_registers_witness :
  ∃ w', SmartParkingSystem.register_user demo_env (demo_world ["Ravi"; "12345"; "6"])
        = Done tt w' ∧
        current_user w' = Some 1%nat ∧
        user_heap w' = [mkUser "uuid-0" "Asha" "98765" [0%nat];
                        mkUser "uuid-2" "Ravi" "12345" []] ∧
        stdin w' = ["6"].
Proof.
  destruct (register_user_registers demo_env (demo_world ["Ravi"; "12345"; "6"])
              "Ravi" "12345" ["6"] eq_refl)
    as (w' & Hrun & Hcu & Hheap & _ & _ & _ & Hin & _).
  exists w'. repeat split; assumption.
Defined.

(** The member of [VehicleType] that a type number selects, with Python's
    indices: 1, 2, 3 and, counting from the end, -2, -1, 0. *)
Lemma py_index_members c :
  py_index VehicleType_members (c - 1) =
    if decide (c = 1 ∨ c = -2) then Some CAR
    else if decide (c = 2 ∨ c = -1) then Some MOTORCYCLE
    else if decide (c = 3 ∨ c = 0) then Some TRUCK
    else None.
Proof.
  unfold py_index, VehicleType_members. simpl length.
  destruct (decide (c < -2)).
  { rewrite !bool_decide_eq_false_2 by lia. repeat case_decide; try lia. done. }
  destruct (decide (3 < c)).
  { rewrite bool_decide_eq_true_2 by lia.
    repeat case_decide; try lia.
    apply lookup_ge_None_2. simpl. lia. }
  assert (c = -2 ∨ c = -1 ∨ c = 0 ∨ c = 1 ∨ c = 2 ∨ c = 3) as Hc by lia.
  destruct Hc as [->|[->|[->|[->|[->| ->]]]]]; reflexivity.
Qed.

Lemma add_vehicle_run env w u usr plate line rest c :
  current_user w = Some u → user_heap w !! u = Some usr →
  stdin w = plate :: line :: rest → py_int env line = Some c →
  let out :=
    stdout w ++ [Prompt "Enter license plate: "; Line "Select Vehicle Type:";
                 Line "1. CAR"; Line "2. MOTORCYCLE"; Line "3. TRUCK";
                 Prompt "Enter vehicle type number: "] in
  SmartParkingSystem.add_vehicle env w =
    match py_index VehicleType_members (c - 1) with
    | Some vt =>
        let v := length (heap (parking_lot w)) in
        let veh := mkVehicle (uuid4 env (uuids_drawn w)) plate vt (name usr)
                             (time_time env (times_read w)) None in
        Done tt
          {| parking_lot := set_heap (heap (parking_lot w) ++ [veh]) (parking_lot w);
             users := users w;
             user_heap := alter (add_vehicle_to v) u (user_heap w);
             current_user := Some u;
             stdin := rest;
             stdout := out ++ [Line ("Vehicle " +:+ plate +:+ " added to user " +:+ name usr)];
             uuids_drawn := S (uuids_drawn w);
             times_read := S (times_read w) |}
    | None =>
        Error IndexError
          {| parking_lot := parking_lot w; users := users w; user_heap := user_heap w;
             current_user := Some u; stdin := rest; stdout := out;
             uuids_drawn := uuids_drawn w; times_read := times_read w |}
    end.
Proof.
  intros Hcu Hu Hin Hint out. destruct w as [lot us uh cu inp o nu nt]. simpl in *. subst.
  unfold SmartParkingSystem.add_vehicle, Vehicle_init, User_add_vehicle, read_user,
    draw_uuid, read_time, print, input, io_bind, io_gets, io_modify, io_from_option, io_ret.
  simpl. rewrite Hint. simpl.
  destruct (py_index VehicleType_members (c - 1)) as [vt|]; simpl.
  - rewrite Hu. simpl. rewrite list_lookup_alter_eq, Hu. simpl.
    unfold out. by rewrite <- !app_assoc.
  - unfold out. by rewrite <- !app_assoc.
Qed.

(** X12. With a current user, a plate and a type number from -2 to 3,
    [add_vehicle] makes one new vehicle object, not parked, owned by the
    current user, with a fresh id and the time of the clock, and appends it
    to the vehicles of that user. The type is the member of [VehicleType]
    that Python's indexing selects: CAR for 1 and -2, MOTORCYCLE for 2 and
    -1, TRUCK for 3 and 0. Slots, capacities, lock and registered users are
    left as they were. *)
Theorem add_vehicle_adds env w u usr plate line rest c :
  current_user w = Some u → user_heap w !! u = Some usr →
  stdin w = plate :: line :: rest → py_int env line = Some c →
  -2 ≤ c ≤ 3 →
  let vt := if decide (c = 1 ∨ c = -2) then CAR
            else if decide (c = 2 ∨ c = -1) then MOTORCYCLE else TRUCK in
  let v := length (heap (parking_lot w)) in
  ∃ w', SmartParkingSystem.add_vehicle env w = Done tt w' ∧
        heap (parking_lot w') =
          heap (parking_lot w) ++
          [mkVehicle (uuid4 env (uuids_drawn w)) plate vt (name usr)
                     (time_time env (times_read w)) None] ∧
        user_heap w' = alter (add_vehicle_to v) u (user_heap w) ∧
        user_heap w' !! u = Some (add_vehicle_to v usr) ∧
        slots (parking_lot w') = slots (parking_lot w) ∧
        total_slots (parking_lot w') = total_slots (parking_lot w) ∧
        lock (parking_lot w') = lock (parking_lot w) ∧
        users w' = users w ∧ current_user w' = current_user w ∧
        stdin w' = rest.
Proof.
  intros Hcu Hu Hin Hint Hc vt v.
  rewrite (add_vehicle_run env w u usr plate line rest c) by done.
  rewrite py_index_members. unfold vt.
  repeat case_decide; try lia;
    (eexists; split; [reflexivity|]; simpl;
     rewrite list_lookup_alter_eq, Hu; done).
Qed.

Lemma add_vehicle_adds_witness :
  ∃ w', SmartParkingSystem.add_vehicle demo_env (demo_world ["MH-12-0007"; "0"; "6"])
        = Done tt w' ∧
        heap (parking_lot w') =
          [mkVehicle "uuid-1" "KA-01-1234" CAR "Asha" 0%Q None;
           mkVehicle "uuid-2" "MH-12-0007" TRUCK "Asha" 1000%Q None] ∧
        user_heap w' = [mkUser "uuid-0" "Asha" "98765" [0%nat; 1%nat]].
Proof.
  destruct (add_vehicle_adds demo_env (demo_world ["MH-12-0007"; "0"; "6"]) 0%nat
              (mkUser "uuid-0" "Asha" "98765" [0%nat]) "MH-12-0007" "0" ["6"] 0
              eq_refl eq_refl eq_refl eq_refl ltac:(lia))
    as (w' & Hrun & Hheap & Huh & _).
  exists w'. repeat split; assumption.
Defined.

(** X13. A type number that is not a numeral, or is below -2 or above 3,
    makes [add_vehicle] raise ([ValueError], [IndexError]) after both lines
    have been read; no vehicle object is made, no id is drawn, and the
    users keep their vehicles. *)
Theorem add_vehicle_rejects env w u usr plate line rest :
  current_user w = Some u → user_heap w !! u = Some usr →
  stdin w = plate :: line :: rest →
  match py_int env line with
  | Some c => c < -2 ∨ 3 < c
  | None => True
  end →
  ∃ w', SmartParkingSystem.add_vehicle env w =
          Error (match py_int env line with
                 | Some _ => IndexError
                 | None => ValueError
                 end) w' ∧
        parking_lot w' = parking_lot w ∧ user_heap w' = user_heap w ∧
        users w' = users w ∧ uuids_drawn w' = uuids_drawn w ∧
        times_read w' = times_read w ∧ stdin w' = rest.
Proof.
  intros Hcu Hu Hin Hc.
  destruct (py_int env line) as [c|] eqn:Hint.
  - rewrite (add_vehicle_run env w u usr plate line rest c) by done.
    rewrite py_index_members. repeat case_decide; try lia.
    eexists. split; [reflexivity|]. done.
  - destruct w as [lot us uh cu inp o nu nt]. simpl in *. subst.
    unfold SmartParkingSystem.add_vehicle, print, input, io_bind, io_gets, io_modify,
      io_from_option, io_ret.
    simpl. rewrite Hint. simpl.
    eexists. split; [reflexivity|]. done.
Qed.

Lemma add_vehicle_rejects_witness :
  ∃ w', SmartParkingSystem.add_vehicle demo_env (demo_world ["MH-12-0007"; "4"; "6"])
        = Error IndexError w' ∧
        parking_lot w' = parking_lot (demo_world []) ∧
        user_heap w' = user_heap (demo_world []) ∧ stdin w' = ["6"].
Proof.
  destruct (add_vehicle_rejects demo_env (demo_world ["MH-12-0007"; "4"; "6"]) 0%nat
              (mkUser "uuid-0" "Asha" "98765" [0%nat]) "MH-12-0007" "4" ["6"]
              eq_refl eq_refl eq_refl ltac:(simpl; lia))
    as (w' & Hrun & Hlot & Huh & _ & _ & _ & Hin).
  exists w'. repeat split; assumption.
Defined.

Lemma set_stdout_same w : set_stdout (stdout w) w = w.
Proof. by destruct w. Qed.

Lemma for_each_vehicle_lines vs k w :
  Forall (λ v, is_Some (heap (parking_lot w) !! v)) vs →
  for_each (enumerate k vs)
    (λ iv, let! veh := read_vehicle iv.2 in
           print (pretty iv.1 +:+ ". " +:+ license_plate veh +:+ " ("
                  +:+ VehicleType_name (vehicle_type veh) +:+ ")")) w
  = Done tt (set_stdout
               (stdout w ++
                (vehicle_line <$> enumerate k (omap (λ v, heap (parking_lot w) !! v) vs)))
               w).
Proof.
  revert k w. induction vs as [|v vs IH]; intros k w Hvs.
  { simpl. unfold io_ret. by rewrite app_nil_r, set_stdout_same. }
  apply Forall_cons in Hvs as [[veh Hv] Hvs].
  cbn [enumerate for_each omap list_omap]. rewrite Hv. cbn [fmap list_fmap enumerate].
  unfold io_bind at 1. unfold io_bind at 1.
  unfold read_vehicle, print, io_bind, io_gets, io_modify, io_from_option. simpl.
  rewrite Hv. simpl.
  match goal with |- for_each _ _ ?w1 = _ => specialize (IH (k + 1) w1) end.
  simpl in IH. unfold read_vehicle, print, io_bind, io_gets, io_modify, io_from_option in IH.
  simpl in IH.
  rewrite IH by done. unfold vehicle_line at 2. simpl.
  by rewrite <- app_assoc.
Qed.

(** X14. With a current user who has vehicles, [park_vehicle] of the menu
    never returns: after the list of the vehicles and the prompt, a line
    that is not a numeral raises [ValueError], a number that selects no
    vehicle raises [IndexError], and a number that selects a vehicle blocks
    the program in the manager, whose lock, taken twice, is not
    re-entrant. *)
Theorem menu_park_vehicle_never_returns env w u usr line rest :
  reentrant (lock (parking_lot w)) = false →
  current_user w = Some u → user_heap w !! u = Some usr → vehicles usr ≠ [] →
  Forall (λ v, is_Some (heap (parking_lot w) !! v)) (vehicles usr) →
  stdin w = line :: rest →
  let out :=
    stdout w ++
    Line "Select a vehicle to park:" ::
    (vehicle_line <$> enumerate 1 (omap (λ v, heap (parking_lot w) !! v) (vehicles usr)))
    ++ [Prompt "Enter vehicle number: "] in
  SmartParkingSystem.park_vehicle env w =
    match py_int env line with
    | None => Error ValueError (set_stdin rest (set_stdout out w))
    | Some number =>
        match py_index (vehicles usr) (number - 1) with
        | None => Error IndexError (set_stdin rest (set_stdout out w))
        | Some _ => Hang out
        end
    end.
Proof.
  intros Hlock Hcu Hu Hvs Halive Hin out.
  unfold SmartParkingSystem.park_vehicle.
  rewrite (io_bind_done _ _ w (Some u) w) by (unfold io_gets; by rewrite Hcu).
  rewrite (io_bind_done _ _ w usr w)
    by (unfold read_user, io_bind, io_gets, io_from_option; by rewrite Hu).
  destruct (vehicles usr) as [|v0 vs] eqn:Hveh; [done|]. rewrite <- Hveh in *.
  erewrite io_bind_done by reflexivity.
  erewrite io_bind_done by (by apply for_each_vehicle_lines).
  unfold io_bind at 1. unfold input at 1. simpl. rewrite Hin.
  assert (((stdout w ++ [Line "Select a vehicle to park:"]) ++
           (vehicle_line <$>
              enumerate 1 (omap (λ v, heap (parking_lot w) !! v) (vehicles usr)))) ++
          [Prompt "Enter vehicle number: "] = out) as ->.
  { unfold out. rewrite <- !app_assoc, Hveh. done. }
  unfold io_bind at 1. unfold io_from_option at 1.
  destruct (py_int env line) as [number|]; [|by destruct w].
  unfold io_bind at 1. unfold io_from_option at 1. unfold io_ret at 1. cbv beta iota.
  destruct (py_index (vehicles usr) (number - 1)) as [v|] eqn:Hix; [|by destruct w].
  assert (v ∈ vehicles usr) as Hv.
  { unfold py_index in Hix. repeat case_bool_decide; try done;
      by eapply list_elem_of_lookup_2. }
  rewrite Forall_forall in Halive. destruct (Halive v Hv) as [veh Hveh'].
  unfold io_ret at 1. cbv beta iota.
  unfold io_bind at 1. unfold call_park_vehicle.
  unfold io_bind at 1. unfold io_gets at 1.
  unfold io_bind at 1. unfold call_manager. simpl.
  by rewrite (park_vehicle_blocks v _ _ veh).
Qed.

Lemma menu_park_vehicle_never_returns_witness :
  SmartParkingSystem.park_vehicle demo_env (demo_world ["1"; "6"]) =
    Hang [Line "Select a vehicle to park:"; Line "1. KA-01-1234 (CAR)";
          Prompt "Enter vehicle number: "].
Proof.
  apply (menu_park_vehicle_never_returns demo_env (demo_world ["1"; "6"]) 0%nat
           (mkUser "uuid-0" "Asha" "98765" [0%nat]) "1" ["6"]).
  - reflexivity.
  - reflexivity.
  - reflexivity.
  - discriminate.
  - repeat constructor. by eexists.
  - reflexivity.
Defined.


(** ** The scan of [remove_vehicle], when it finds a slot *)

Lemma remove_from_list_Some sid l r l' :
  remove_from_list sid l = Some (r, l') →
  ∃ l1 sl l2, l = l1 ++ sl :: l2 ∧ (∀ x, x ∈ l1 → ¬ matches sid x) ∧
              matches sid sl ∧ r = vehicle sl ∧ l' = l1 ++ vacate sl :: l2.
Proof.
  revert r l'. induction l as [|x l IH]; intros r l'; simpl; [done|].
  case_decide as Hx.
  - intros [= <- <-]. exists [], x, l.
    split_and!; [done|by intros ? ?%elem_of_nil|done|done|done].
  - destruct (remove_from_list sid l) as [[r0 l0]|] eqn:Hl; [|done].
    intros [= <- <-]. destruct (IH _ _ eq_refl) as (l1 & sl & l2 & -> & Hl1 & Hm & -> & ->).
    exists (x :: l1), sl, l2. split_and!; [done| |done|done|done].
    intros y [->|Hy]%elem_of_cons; [done|by apply Hl1].
Qed.

Lemma remove_from_values_Some sid d r d' :
  remove_from_values sid d = Some (r, d') →
  ∃ d1 vt l1 sl l2 d2,
    d = d1 ++ (vt, l1 ++ sl :: l2) :: d2 ∧
    (∀ k l x, (k, l) ∈ d1 → x ∈ l → ¬ matches sid x) ∧
    (∀ x, x ∈ l1 → ¬ matches sid x) ∧
    matches sid sl ∧ r = vehicle sl ∧
    d' = d1 ++ (vt, l1 ++ vacate sl :: l2) :: d2.
Proof.
  revert r d'. induction d as [|[k l] d IH]; intros r d'; simpl; [done|].
  destruct (remove_from_list sid l) as [[r0 l0]|] eqn:Hl.
  - intros [= <- <-].
    apply remove_from_list_Some in Hl as (l1 & sl & l2 & -> & Hl1 & Hm & -> & ->).
    exists [], k, l1, sl, l2, d.
    split_and!; [done|by intros ? ? ? ?%elem_of_nil|done|done|done|done].
  - destruct (remove_from_values sid d) as [[r0 d0]|] eqn:Hd; [|done].
    intros [= <- <-].
    destruct (IH _ _ eq_refl) as (d1 & vt & l1 & sl & l2 & d2 & -> & Hd1 & Hl1 & Hm & -> & ->).
    exists ((k, l) :: d1), vt, l1, sl, l2, d2. split_and!; [done| |done|done|done|done].
    intros k' l' x [[= -> ->]|Hin]%elem_of_cons Hx.
    + rewrite remove_from_list_None in Hl. by apply Hl.
    + by eapply Hd1.
Qed.

(** ** Every OCCUPIED slot holds a vehicle object *)

Lemma dict_alter_Forall {K V} `{EqDecision K} (P : V → Prop) (f : V → V) k
    (d : list (K * V)) :
  (∀ x, P x → P (f x)) → Forall (λ e, P e.2) d → Forall (λ e, P e.2) (dict_alter f k d).
Proof.
  intros Hf. induction 1 as [|[k' x] d Hx Hd IH]; simpl; [done|].
  case_decide; constructor; simpl; auto.
Qed.

Lemma manager_with_listable l slot_config h : listable (manager_with l slot_config h).
Proof.
  pose proof (manager_with_vacant l slot_config h) as Hvac.
  unfold listable. eapply Forall_impl; [exact Hvac|]. intros e He. simpl in He.
  eapply Forall_impl; [exact He|]. intros sl (Hs & _) Hocc. congruence.
Qed.

Lemma listable_heap s h' :
  (∀ v, is_Some (heap s !! v) → is_Some (h' !! v)) →
  listable s → listable (set_heap h' s).
Proof.
  intros Hh Hs. unfold listable in *. simpl.
  eapply Forall_impl; [exact Hs|]. intros e He. simpl in He.
  eapply Forall_impl; [exact He|]. intros sl Hsl Hocc.
  destruct (Hsl Hocc) as (v & veh & Hv & Hveh).
  destruct (Hh v) as [veh' Hveh']; [by eexists|]. by exists v, veh'.
Qed.

Lemma listable_parked r v now s veh :
  heap s !! v = Some veh → listable s → listable (parked r v now s).
Proof.
  intros Hv Hs. unfold parked. destruct (read_slot r s) as [sl|]; [|done].
  apply listable_heap.
  { intros v' [x Hx]. simpl. destruct (decide (v' = v)) as [->|Hne].
    - rewrite list_lookup_alter_eq. simpl in Hx. rewrite Hx. by eexists.
    - rewrite list_lookup_alter_ne by done. by eexists. }
  unfold listable in *. simpl.
  apply (dict_alter_Forall
           (Forall (λ slot, status slot = OCCUPIED →
                            ∃ v0 veh0, vehicle slot = Some v0 ∧ heap s !! v0 = Some veh0)));
    [|done].
  intros l Hl. apply Forall_alter; [done|].
  intros x _ _. by exists v, veh.
Qed.

Lemma listable_removed sid s r d' :
  remove_from_values sid (slots s) = Some (r, d') → listable s →
  listable (set_slots d' s) ∧ ∃ v veh, r = Some v ∧ heap s !! v = Some veh.
Proof.
  intros Hrm Hs.
  apply remove_from_values_Some in Hrm
    as (d1 & vt & l1 & sl & l2 & d2 & Hd & _ & _ & [_ Hocc] & -> & ->).
  unfold listable in *. simpl. rewrite Hd in Hs.
  apply Forall_app in Hs as [Hd1 Hd2]. apply Forall_cons in Hd2 as [Hl Hd2].
  simpl in Hl. apply Forall_app in Hl as [Hl1 Hl2]. apply Forall_cons in Hl2 as [Hsl Hl2].
  split; [|by apply Hsl].
  apply Forall_app. split; [done|]. constructor; [|done]. simpl.
  apply Forall_app. split; [done|]. constructor; [|done]. simpl. done.
Qed.

Lemma after_listable c s s' : listable s → after c s = Some s' → listable s'.
Proof.
  intros Hs. destruct c as [v now|sid]; simpl.
  - destruct (decide (may_enter (lock s))) as [He|He].
    2:{ by rewrite park_vehicle_no_entry. }
    destruct (heap s !! v) as [veh|] eqn:Hv.
    2:{ rewrite park_vehicle_bad_reference by done. by intros [= <-]. }
    destruct (reentrant (lock s)) eqn:Hr.
    2:{ by rewrite (park_vehicle_blocks _ _ _ veh). }
    rewrite (park_vehicle_reentrant _ _ _ veh) by done.
    destruct (first_available _ _); [|by intros [= <-]].
    destruct (dict_get _ (total_slots s)); [|by intros [= <-]].
    case_bool_decide; intros [= <-]; [done|by eapply listable_parked].
  - destruct (decide (may_enter (lock s))) as [He|He].
    2:{ by rewrite remove_vehicle_no_entry. }
    rewrite remove_vehicle_enter by done.
    destruct (remove_from_values sid (slots s)) as [[r d']|] eqn:Hd.
    + intros [= <-]. by eapply listable_removed.
    + by intros [= <-].
Qed.

Lemma reachable_listable s0 s : listable s0 → reachable s0 s → listable s.
Proof.
  intros H0. induction 1 as [|s c s' _ IH Hc|s veh _ IH]; [done| |].
  - by eapply after_listable.
  - apply listable_heap; [|done]. intros v [x Hx]. exists x. by apply lookup_app_l_Some.
Qed.

(** ** The listing and the exit of a vehicle *)

Lemma for_each_slot_lines l w :
  Forall (λ slot, status slot = OCCUPIED →
                  ∃ v veh, vehicle slot = Some v ∧ heap (parking_lot w) !! v = Some veh) l →
  for_each l
    (λ slot,
       if decide (status slot = OCCUPIED) then
         let! v := io_from_option (ManagerError AttributeError) (vehicle slot) in
         let! veh := read_vehicle v in
         print ("Slot: " +:+ slot_id slot +:+ ", Vehicle: " +:+ license_plate veh
                +:+ ", Owner: " +:+ owner_name veh)
       else io_ret tt) w
  = Done tt (set_stdout (stdout w ++ omap (slot_line (heap (parking_lot w))) l) w).
Proof.
  revert w. induction l as [|sl l IH]; intros w Hl.
  { simpl. unfold io_ret. by rewrite app_nil_r, set_stdout_same. }
  apply Forall_cons in Hl as [Hsl Hl].
  cbn [for_each omap list_omap]. unfold slot_line at 1.
  destruct (decide (status sl = OCCUPIED)) as [Hocc|Hocc].
  - destruct (Hsl Hocc) as (v & veh & Hv & Hveh). rewrite Hv. cbn [mbind option_bind]. rewrite Hveh.
    erewrite io_bind_done; last first.
    { unfold read_vehicle. unfold io_bind, io_from_option, io_gets, print, io_modify, io_ret.
      rewrite Hveh. reflexivity. }
    rewrite IH by done. simpl. by rewrite <- app_assoc.
  - erewrite io_bind_done by reflexivity. by rewrite IH.
Qed.

Lemma for_each_category_lines d w :
  Forall (λ item : VehicleType * list ParkingSlot,
            Forall (λ slot, status slot = OCCUPIED →
                            ∃ v veh, vehicle slot = Some v ∧
                                     heap (parking_lot w) !! v = Some veh) item.2) d →
  for_each d
    (λ item,
       print (newline +:+ VehicleType_name item.1 +:+ " Slots:") ;!
       for_each item.2
         (λ slot,
            if decide (status slot = OCCUPIED) then
              let! v := io_from_option (ManagerError AttributeError) (vehicle slot) in
              let! veh := read_vehicle v in
              print ("Slot: " +:+ slot_id slot +:+ ", Vehicle: " +:+ license_plate veh
                     +:+ ", Owner: " +:+ owner_name veh)
            else io_ret tt)) w
  = Done tt (set_stdout
               (stdout w ++
                flat_map (λ item : VehicleType * list ParkingSlot,
                            Line (newline +:+ VehicleType_name item.1 +:+ " Slots:")
                            :: omap (slot_line (heap (parking_lot w))) item.2) d) w).
Proof.
  revert w. induction d as [|item d IH]; intros w Hd.
  { simpl. unfold io_ret. by rewrite app_nil_r, set_stdout_same. }
  apply Forall_cons in Hd as [Hitem Hd].
  cbn [for_each flat_map].
  erewrite io_bind_done; last first.
  { erewrite io_bind_done by reflexivity. by apply for_each_slot_lines. }
  rewrite IH by done. simpl. by rewrite <- !app_assoc.
Qed.

Lemma list_parked_vehicles_run w :
  listable (parking_lot w) →
  SmartParkingSystem.list_parked_vehicles w =
    Done tt (set_stdout (stdout w ++ parked_listing (parking_lot w)) w).
Proof.
  intros Hw. unfold SmartParkingSystem.list_parked_vehicles.
  erewrite io_bind_done by reflexivity.
  erewrite io_bind_done by reflexivity.
  rewrite for_each_category_lines by done. simpl.
  unfold parked_listing. by rewrite <- app_assoc.
Qed.





Lemma get_parking_fee_at_least now veh : (5 <= get_parking_fee now veh)%Q.
Proof.
  unfold get_parking_fee, fee_amount, py_max.
  destruct (Qle_bool _ _) eqn:Hle.
  - by apply Qle_bool_iff in Hle.
  - apply Qle_refl.
Qed.

Lemma exit_vehicle_run env w sid rest :
  listable (parking_lot w) → stdin w = sid :: rest →
  SmartParkingSystem.exit_vehicle env w =
    let out := stdout w ++ parked_listing (parking_lot w)
               ++ [Prompt "Enter slot ID to remove vehicle: "] in
    match remove_vehicle sid (parking_lot w) with
    | Returned (Some v) s' =>
        match heap s' !! v with
        | Some veh =>
            Done tt
              {| parking_lot := s'; users := users w; user_heap := user_heap w;
                 current_user := current_user w; stdin := rest;
                 stdout := out ++ [FeeLine (license_plate veh)
                                     (get_parking_fee (time_time env (times_read w)) veh)];
                 uuids_drawn := uuids_drawn w; times_read := S (times_read w) |}
        | None =>
            Error (ManagerError AttributeError)
              {| parking_lot := s'; users := users w; user_heap := user_heap w;
                 current_user := current_user w; stdin := rest; stdout := out;
                 uuids_drawn := uuids_drawn w; times_read := S (times_read w) |}
        end
    | Returned None s' =>
        Done tt
          {| parking_lot := s'; users := users w; user_heap := user_heap w;
             current_user := current_user w; stdin := rest;
             stdout := out ++ [Line "No vehicle found in the specified slot."];
             uuids_drawn := uuids_drawn w; times_read := times_read w |}
    | Raised e s' =>
        Error (ManagerError e)
          {| parking_lot := s'; users := users w; user_heap := user_heap w;
             current_user := current_user w; stdin := rest; stdout := out;
             uuids_drawn := uuids_drawn w; times_read := times_read w |}
    | Deadlock => Hang out
    end.
Proof.
  intros Hw Hin. unfold SmartParkingSystem.exit_vehicle.
  erewrite io_bind_done by (by apply list_parked_vehicles_run).
  unfold io_bind at 1. unfold input. simpl. rewrite Hin.
  unfold io_bind at 1. unfold call_manager. simpl.
  rewrite <- !app_assoc.
  destruct (remove_vehicle sid (parking_lot w)) as [[v|] s'|e s'|];
    unfold read_vehicle, read_time, print;
    unfold io_bind, io_gets, io_from_option, io_modify, io_ret, io_raise; simpl;
    try destruct (heap s' !! v); simpl;
    repeat (rewrite <- app_assoc || rewrite <- app_comm_cons); reflexivity.
Qed.

Lemma taken_lot_listable t : listable (taken_lot t).
Proof.
  repeat constructor. intros _.
  by exists 0%nat, (set_parking_slot_id (Some "CAR_SLOT_1") car_A).
Qed.

(** X16. In every state of the system whose slots carry the identifiers of
    initialisation and whose OCCUPIED slots hold vehicle objects, with the
    lock free, typing at [exit_vehicle] the identifier of an OCCUPIED slot
    frees that slot, reads the clock once and reports, for the vehicle that
    was in it, the amount of [get_parking_fee] at that reading (amounts
    read as exact rationals), which is at least 5; the listing printed
    first still shows the vehicle, and the vehicle objects are left as they
    were. *)
Theorem exit_vehicle_charges env w vt l i sl rest :
  listable (parking_lot w) → named (slots (parking_lot w)) →
  may_enter (lock (parking_lot w)) →
  dict_get vt (slots (parking_lot w)) = Some l → l !! i = Some sl →
  status sl = OCCUPIED →
  stdin w = slot_id sl :: rest →
  ∃ v veh w',
    vehicle sl = Some v ∧ heap (parking_lot w) !! v = Some veh ∧
    SmartParkingSystem.exit_vehicle env w = Done tt w' ∧
    let fee := get_parking_fee (time_time env (times_read w)) veh in
    stdout w' = stdout w ++ parked_listing (parking_lot w) ++
                [Prompt "Enter slot ID to remove vehicle: ";
                 FeeLine (license_plate veh) fee] ∧
    slots_get vt (parking_lot w') = alter vacate i l ∧
    heap (parking_lot w') = heap (parking_lot w) ∧
    stdin w' = rest ∧
    times_read w' = S (times_read w) ∧
    (5 <= fee)%Q.
Proof.
  intros Hw Hn He Hl Hi Hocc Hin.
  assert (∃ v veh, vehicle sl = Some v ∧ heap (parking_lot w) !! v = Some veh)
    as (v & veh & Hv & Hveh).
  { unfold listable in Hw. rewrite Forall_forall in Hw.
    assert ((vt, l) ∈ slots (parking_lot w)) as Hmem.
    { apply dict_get_split in Hl as (d1 & d2 & -> & _). apply elem_of_app. right.
      apply list_elem_of_here. }
    specialize (Hw _ Hmem). simpl in Hw. rewrite Forall_forall in Hw.
    apply Hw; [|done]. by eapply list_elem_of_lookup_2. }
  destruct (remove_vehicle_by_name (parking_lot w) vt i l sl Hn He Hl Hi Hocc)
    as (s' & Hrm & Hheap & _ & Hslots).
  exists v, veh. rewrite (exit_vehicle_run env w (slot_id sl) rest) by done.
  cbv zeta. rewrite Hrm, Hv, Hheap, Hveh.
  eexists. split; [done|]. split; [done|]. split; [reflexivity|]. simpl.
  split_and!; try done.
  - repeat (rewrite <- app_assoc || rewrite <- app_comm_cons). reflexivity.
  - apply get_parking_fee_at_least.
Qed.

Lemma exit_vehicle_charges_witness :
  ∃ w', SmartParkingSystem.exit_vehicle demo_env (demo_occupied_world ["CAR_SLOT_1"; "6"])
        = Done tt w' ∧
        slots_get CAR (parking_lot w') = [ParkingSlot_init "CAR_SLOT_1" CAR] ∧
        stdin w' = ["6"].
Proof.
  destruct (exit_vehicle_charges demo_env (demo_occupied_world ["CAR_SLOT_1"; "6"])
              CAR [occupy 0%nat 100%Q (ParkingSlot_init "CAR_SLOT_1" CAR)] 0%nat
              (occupy 0%nat 100%Q (ParkingSlot_init "CAR_SLOT_1" CAR)) ["6"]
              (taken_lot_listable 100) (taken_lot_named 100) ltac:(by left)
              eq_refl eq_refl eq_refl eq_refl)
    as (v & veh & w' & _ & _ & Hrun & _ & Hslots & _ & Hin & _).
  exists w'. repeat split; assumption.
Defined.

(** X17. Where every OCCUPIED slot holds a vehicle object, as in every
    state that the manager can reach, typing at [exit_vehicle] an id that
    no OCCUPIED slot carries changes nothing but the input and the output:
    after the listing and the prompt the program prints that no vehicle was
    found. *)
Theorem exit_vehicle_unknown_slot env w sid rest :
  may_enter (lock (parking_lot w)) →
  listable (parking_lot w) →
  (∀ vt l sl, (vt, l) ∈ slots (parking_lot w) → sl ∈ l → ¬ matches sid sl) →
  stdin w = sid :: rest →
  SmartParkingSystem.exit_vehicle env w =
    Done tt (set_stdin rest
               (set_stdout (stdout w ++ parked_listing (parking_lot w) ++
                            [Prompt "Enter slot ID to remove vehicle: ";
                             Line "No vehicle found in the specified slot."]) w)).
Proof.
  intros He Hw Hno Hin.
  rewrite (exit_vehicle_run env w sid rest) by done. cbv zeta.
  rewrite remove_vehicle_enter by done.
  apply remove_from_values_None in Hno. rewrite Hno.
  destruct w; simpl.
  repeat (rewrite <- app_assoc || rewrite <- app_comm_cons). reflexivity.
Qed.

Lemma exit_vehicle_unknown_slot_witness :
  SmartParkingSystem.exit_vehicle demo_env (demo_taken_world ["CAR_SLOT_2"; "6"]) =
    Done tt (set_stdin ["6"]
               (set_stdout (parked_listing one_car_lot_taken ++
                            [Prompt "Enter slot ID to remove vehicle: ";
                             Line "No vehicle found in the specified slot."])
                           (demo_taken_world ["CAR_SLOT_2"; "6"]))).
Proof.
  apply (exit_vehicle_unknown_slot demo_env (demo_taken_world ["CAR_SLOT_2"; "6"])
           "CAR_SLOT_2" ["6"]).
  - by right.
  - eapply reachable_listable; [apply manager_with_listable|].
    apply one_car_lot_taken_reachable.
  - intros vt l sl Hl Hsl [Hid _].
    apply list_elem_of_singleton in Hl. injection Hl as -> ->.
    apply list_elem_of_singleton in Hsl. subst sl. discriminate Hid.
  - reflexivity.
Defined.


(** ** The chain of the slots *)

Lemma append_linked_linked vt i cur : linked vt cur → linked vt (append_linked vt i cur).
Proof.
  intros Hcur. unfold append_linked.
  destruct cur as [|x0 cur0] eqn:Hc.
  { intros [|j] sl; simpl; [|done]. intros [= <-]. simpl. done. }
  rewrite <- Hc in *. assert (length cur ≠ 0%nat) as Hlen by (subst cur; simpl; lia).
  clear Hc x0 cur0.
  intros j sl Hj. rewrite length_app, length_alter. simpl length.
  apply lookup_app_Some in Hj as [Hj|[Hge Hj]].
  - pose proof (lookup_lt_Some _ _ _ Hj) as Hlt. rewrite length_alter in Hlt.
    destruct (decide (j = Nat.pred (length cur))) as [->|Hne].
    + rewrite list_lookup_alter_eq in Hj.
      destruct (cur !! Nat.pred (length cur)) as [x|] eqn:Hx; [|done].
      injection Hj as <-. destruct (Hcur _ _ Hx) as [Hp _]. simpl.
      split; [done|]. rewrite decide_False by lia. do 2 f_equal. lia.
    + rewrite list_lookup_alter_ne in Hj by done.
      destruct (Hcur _ _ Hj) as [Hp Hn]. split; [done|].
      rewrite Hn. rewrite !decide_False by lia. done.
  - rewrite length_alter in Hge, Hj.
    destruct (j - length cur)%nat as [|k] eqn:Hk; [|done].
    simpl in Hj. injection Hj as <-. simpl.
    assert (j = length cur) as -> by lia.
    rewrite decide_False by lia. split; [done|]. rewrite decide_True by lia. done.
Qed.

Lemma append_linked_type vt i cur :
  Forall (λ sl, slot_vehicle_type sl = vt) cur →
  Forall (λ sl, slot_vehicle_type sl = vt) (append_linked vt i cur).
Proof.
  intros Hcur. unfold append_linked. destruct cur as [|x0 cur0] eqn:Hc.
  { by repeat constructor. }
  rewrite <- Hc in *. apply Forall_app. split.
  - apply Forall_alter; [done|]. intros x _ Hx. done.
  - by repeat constructor.
Qed.

Lemma build_slots_linked vt ixs acc :
  linked vt acc → Forall (λ sl, slot_vehicle_type sl = vt) acc →
  linked vt (build_slots vt ixs acc) ∧
  Forall (λ sl, slot_vehicle_type sl = vt) (build_slots vt ixs acc).
Proof.
  revert acc. induction ixs as [|i ixs IH]; intros acc Hl Ht; [done|].
  unfold build_slots in *. simpl. apply IH.
  - by apply append_linked_linked.
  - by apply append_linked_type.
Qed.

Lemma manager_with_chained l slot_config h : chained (slots (manager_with l slot_config h)).
Proof.
  unfold manager_with, _initialize_slots.
  assert (chained (slots {| lock := l; slots := []; total_slots := []; heap := h |})) as H0
    by constructor.
  revert H0. generalize {| lock := l; slots := []; total_slots := []; heap := h |}.
  induction slot_config as [|[vt count] cfg IH]; intros s Hs; cbn [fold_left]; [done|].
  apply IH. rewrite initialize_category_eq. simpl.
  apply dict_set_Forall; [done|]. simpl. apply build_slots_linked; [|constructor].
  by intros i sl Hi.
Qed.

Lemma slot_step_links sl sl' :
  slot_step sl sl' →
  prev_slot sl' = prev_slot sl ∧ next_slot sl' = next_slot sl ∧
  slot_vehicle_type sl' = slot_vehicle_type sl.
Proof. by intros [->|[(v & now & ->)| ->]]. Qed.

Lemma pool_step_chained d d' : pool_step d d' → chained d → chained d'.
Proof.
  induction 1 as [|e e' d d' [He Hl] _ IH]; [done|].
  intros [[Hlink Htype] Hd]%Forall_cons. constructor; [|by apply IH].
  rewrite <- He. split.
  - intros i sl' Hi. destruct (Forall2_lookup_r _ _ _ _ _ Hl Hi) as (sl & Hsl & Hstep).
    destruct (slot_step_links _ _ Hstep) as (-> & -> & _).
    rewrite <- (Forall2_length _ _ _ Hl). by apply Hlink.
  - rewrite Forall_forall in Htype. apply Forall_forall. intros sl' Hin.
    apply list_elem_of_lookup in Hin as [i Hi].
    destruct (Forall2_lookup_r _ _ _ _ _ Hl Hi) as (sl & Hsl & Hstep).
    destruct (slot_step_links _ _ Hstep) as (_ & _ & ->).
    apply Htype. by eapply list_elem_of_lookup_2.
Qed.

Lemma reachable_chained s0 s : chained (slots s0) → reachable s0 s → chained (slots s).
Proof.
  intros H0. induction 1 as [|s c s' _ IH Hc|s veh _ IH]; [done| |done].
  apply after_frame in Hc as (Hp & _). by eapply pool_step_chained.
Qed.

(** X18. The linked list of [_initialize_slots] is kept by every call: in
    every reachable state the slot at index [i] of a category is of that
    category, points back to the slot at index [i - 1] (the first to
    nothing) and forward to the slot at index [i + 1] (the last to
    nothing). *)
Theorem slots_chained l slot_config h s vt lst i sl :
  reachable (manager_with l slot_config h) s →
  dict_get vt (slots s) = Some lst → lst !! i = Some sl →
  slot_vehicle_type sl = vt ∧
  prev_slot sl = (if decide (i = 0%nat) then None else Some (vt, Nat.pred i)) ∧
  next_slot sl = (if decide (S i = length lst) then None else Some (vt, S i)).
Proof.
  intros Hreach Hl Hi.
  pose proof (reachable_chained _ _ (manager_with_chained l slot_config h) Hreach) as Hch.
  unfold chained in Hch. rewrite Forall_forall in Hch.
  destruct (Hch _ (dict_get_elem_of _ _ _ Hl)) as [Hlink Htype]. simpl in *.
  split; [|by apply Hlink].
  rewrite Forall_forall in Htype. apply Htype. by eapply list_elem_of_lookup_2.
Qed.

Lemma slots_chained_witness :
  let sl := set_next_slot (Some (CAR, 2%nat))
              (set_prev_slot (Some (CAR, 0%nat)) (ParkingSlot_init "CAR_SLOT_2" CAR)) in
  slot_vehicle_type sl = CAR ∧
  prev_slot sl = (if decide (1 = 0)%nat then None else Some (CAR, 0%nat)) ∧
  next_slot sl = (if decide (2 = 3)%nat then None else Some (CAR, 2%nat)).
Proof.
  apply (slots_chained threading_RLock [(CAR, 3)] []
           (manager_with threading_RLock [(CAR, 3)] []) CAR
           (slots_get CAR (manager_with threading_RLock [(CAR, 3)] [])) 1%nat).
  - apply reach_init.
  - reflexivity.
  - reflexivity.
Defined.

(** ** What the constructor builds *)

Lemma dict_get_snoc {K V} `{EqDecision K} (k k0 : K) (v0 : V) (d : list (K * V)) :
  dict_get k (d ++ [(k0, v0)]) =
    match dict_get k d with
    | Some v => Some v
    | None => if decide (k0 = k) then Some v0 else None
    end.
Proof.
  induction d as [|[k1 v1] d IH]; simpl.
  - repeat case_decide; congruence.
  - destruct (decide (k = k1)); [done|apply IH].
Qed.

Lemma initialize_slots_get slot_config s vt :
  dict_get vt (total_slots (_initialize_slots slot_config s)) =
    match dict_get vt (reverse slot_config) with
    | Some count => Some count
    | None => dict_get vt (total_slots s)
    end ∧
  dict_get vt (slots (_initialize_slots slot_config s)) =
    match dict_get vt (reverse slot_config) with
    | Some count => Some (build_slots vt (range count) [])
    | None => dict_get vt (slots s)
    end.
Proof.
  unfold _initialize_slots. revert s.
  induction slot_config as [|[k count] cfg IH]; intros s; cbn [fold_left]; [done|].
  rewrite reverse_cons, dict_get_snoc.
  destruct (IH (initialize_category s (k, count))) as [-> ->].
  destruct (dict_get vt (reverse cfg)) as [c|]; [done|].
  rewrite initialize_category_eq. simpl. rewrite !dict_get_set.
  case_decide; by subst.
Qed.

(** X19. What the constructor builds: the capacity recorded for a category
    is the count that the configuration gives it, and its slots are the
    chain built for that count alone, whatever the other categories are:
    [max(0, count)] slots, all AVAILABLE without occupant, named from 1
    upwards; a category that the configuration does not mention has neither
    capacity nor slots. The lock is free and the vehicle objects are those
    that existed. *)
Theorem constructor_builds l slot_config h vt :
  let s := manager_with l slot_config h in
  dict_get vt (total_slots s) = dict_get vt (reverse slot_config) ∧
  dict_get vt (slots s) =
    (λ count, build_slots vt (range count) []) <$> dict_get vt (reverse slot_config) ∧
  (∀ count, dict_get vt (reverse slot_config) = Some count →
     length (slots_get vt s) = Z.to_nat count ∧
     Forall vacant (slots_get vt s) ∧
     slot_id <$> slots_get vt s = slot_name vt <$> range count) ∧
  (dict_get vt (reverse slot_config) = None → slots_get vt s = []) ∧
  lock s = l ∧ heap s = h.
Proof.
  intros s. unfold s, manager_with.
  destruct (initialize_slots_get slot_config
              {| lock := l; slots := []; total_slots := []; heap := h |} vt) as [Ht Hs].
  simpl in Ht, Hs. unfold slots_get. rewrite Ht, Hs.
  split_and!.
  - by destruct (dict_get vt (reverse slot_config)).
  - by destruct (dict_get vt (reverse slot_config)).
  - intros count ->. simpl. split_and!.
    + apply build_slots_length.
    + apply build_slots_vacant. constructor.
    + by rewrite build_slots_ids.
  - by intros ->.
  - apply initialize_slots_lock.
  - apply initialize_slots_heap.
Qed.

(** ** The scan of [find_available_slot], when it finds nothing *)

(** X20. [find_available_slot], called with the lock free, always returns
    and changes nothing; it returns no slot exactly when the category has
    no AVAILABLE slot, in particular for a category that is not in the
    pool. *)
Theorem find_available_slot_none vt s :
  may_enter (lock s) →
  ∃ r, find_available_slot vt s = Returned r s ∧
       (r = None ↔ ∀ sl, sl ∈ slots_get vt s → status sl ≠ AVAILABLE) ∧
       (dict_get vt (slots s) = None → r = None).
Proof.
  intros He. rewrite find_available_slot_enter by done.
  eexists. split; [done|]. split.
  - rewrite <- (first_available_None _ 0).
    destruct (first_available (slots_get vt s) 0); split; done.
  - intros Hnone. unfold slots_get. rewrite Hnone. done.
Qed.

Lemma find_available_slot_none_witness :
  ∃ r, find_available_slot TRUCK one_car_lot = Returned r one_car_lot ∧
       (r = None ↔ ∀ sl, sl ∈ slots_get TRUCK one_car_lot → status sl ≠ AVAILABLE) ∧
       (dict_get TRUCK (slots one_car_lot) = None → r = None).
Proof.
  apply (find_available_slot_none TRUCK one_car_lot). by left.
Defined.

(** ** Releasing twice *)

(** X21. In every state whose slots carry the identifiers of
    initialisation, under distinct keys, once [remove_vehicle] has released
    a slot, a second call with the same identifier finds nothing: it
    returns [None] and changes nothing. *)
Theorem remove_vehicle_twice s sid v s1 :
  named (slots s) → NoDup (slots s).*1 →
  remove_vehicle sid s = Returned (Some v) s1 →
  remove_vehicle sid s1 = Returned None s1.
Proof.
  intros Hn Hk Hrm.
  destruct (decide (may_enter (lock s))) as [He|He].
  2:{ by rewrite remove_vehicle_no_entry in Hrm. }
  rewrite remove_vehicle_enter in Hrm by done.
  destruct (remove_from_values sid (slots s)) as [[r d']|] eqn:Hd; [|done].
  injection Hrm as -> <-.
  rewrite remove_vehicle_enter by done. cbn [slots set_slots].
  apply remove_from_values_Some in Hd
    as (d1 & vt & l1 & sl & l2 & d2 & Hs & Hd1 & Hl1 & [Hid _] & _ & ->).
  rewrite Hs in Hn, Hk. unfold named in Hn.
  apply Forall_app in Hn as [_ Hn]. apply Forall_cons in Hn as [Hnl Hn2]. simpl in Hnl.
  rewrite fmap_app, fmap_cons in Hk. apply NoDup_app in Hk as (_ & _ & Hk).
  apply NoDup_cons in Hk as [Hk _]. simpl in Hk.
  assert (sid = slot_name vt (Z.of_nat (length l1))) as Hsid.
  { rewrite <- Hid. apply Hnl. by rewrite list_lookup_middle. }
  assert (remove_from_values sid (d1 ++ (vt, l1 ++ vacate sl :: l2) :: d2) = None) as ->;
    [|done].
  apply remove_from_values_None. intros k l0 x Hin Hx [Hidx Hocc].
  apply elem_of_app in Hin as [Hin|Hin]; [by apply (Hd1 k l0 x)|].
  apply elem_of_cons in Hin as [[= -> ->]|Hin].
  - apply elem_of_app in Hx as [Hx|Hx]; [by apply (Hl1 x)|].
    apply elem_of_cons in Hx as [->|Hx]; [done|].
    apply list_elem_of_lookup in Hx as [j Hj].
    assert ((l1 ++ sl :: l2) !! (length l1 + S j)%nat = Some x) as Hj'.
    { rewrite lookup_app_r by lia.
      replace (length l1 + S j - length l1)%nat with (S j) by lia. done. }
    rewrite (Hnl _ _ Hj'), Hsid in Hidx. apply slot_name_inj in Hidx as [_ Hij]. lia.
  - rewrite Forall_forall in Hn2. specialize (Hn2 _ Hin). simpl in Hn2.
    apply list_elem_of_lookup in Hx as [j Hj].
    rewrite (Hn2 _ _ Hj), Hsid in Hidx. apply slot_name_inj in Hidx as [-> _].
    apply Hk. apply list_elem_of_fmap. by exists (vt, l0).
Qed.

Lemma remove_vehicle_twice_witness :
  let s1 := default (taken_lot 100) (after (Remove "CAR_SLOT_1") (taken_lot 100)) in
  remove_vehicle "CAR_SLOT_1" s1 = Returned None s1.
Proof.
  apply (remove_vehicle_twice (taken_lot 100) "CAR_SLOT_1" 0%nat).
  - apply taken_lot_named.
  - repeat constructor. by intros ?%elem_of_nil.
  - reflexivity.
Defined.

Lemma dict_alter_fixed {K V} `{EqDecision K} (f : V → V) (k : K) (v : V) (d : list (K * V)) :
  dict_get k d = Some v → f v = v → dict_alter f k d = d.
Proof.
  intros Hk Hf. induction d as [|[k0 v0] d IH]; simpl in *; [done|].
  case_decide.
  - injection Hk as ->. by rewrite Hf.
  - f_equal. by apply IH.
Qed.

Lemma dict_alter_split {K V} `{EqDecision K} (f : V → V) (k : K) (v : V)
    (d1 d2 : list (K * V)) :
  k ∉ d1.*1 → dict_alter f k (d1 ++ (k, v) :: d2) = d1 ++ (k, f v) :: d2.
Proof.
  intros Hk. induction d1 as [|[k0 v0] d1 IH]; simpl.
  - by rewrite decide_True.
  - rewrite fmap_cons in Hk. apply not_elem_of_cons in Hk as [Hne Hk]. simpl in Hne.
    rewrite decide_False by done. f_equal. by apply IH.
Qed.

Lemma alter_fixed {A} (f : A → A) (l : list A) i x :
  l !! i = Some x → f x = x → alter f i l = l.
Proof.
  revert i. induction l as [|y l IH]; intros [|i] Hi Hf; simplify_eq/=.
  - by rewrite Hf.
  - f_equal. by eapply IH.
Qed.

Lemma remove_vehicle_by_name_slots s vt i l sl :
  named (slots s) → may_enter (lock s) →
  dict_get vt (slots s) = Some l → l !! i = Some sl → status sl = OCCUPIED →
  remove_vehicle (slot_id sl) s =
    Returned (vehicle sl) (set_slots (dict_alter (alter vacate i) vt (slots s)) s).
Proof.
  intros Hn He Hl Hi Hocc.
  destruct (dict_get_split _ _ _ Hl) as (d1 & d2 & Hd & Hk).
  pose proof (take_drop_middle _ _ _ Hi) as Hmid.
  unfold named in Hn. rewrite Hd in Hn.
  apply Forall_app in Hn as [Hn1 Hn2]. apply Forall_cons in Hn2 as [Hnl _].
  simpl in Hnl. pose proof (Hnl i sl Hi) as Hid.
  assert (remove_from_values (slot_id sl) (slots s)
          = Some (vehicle sl, d1 ++ (vt, alter vacate i l) :: d2)) as Hrm.
  { rewrite Hd, <- (alter_middle vacate l i sl Hi).
    replace (d1 ++ (vt, l) :: d2)
      with (d1 ++ (vt, take i l ++ sl :: drop (S i) l) :: d2) by (by rewrite Hmid).
    apply remove_from_values_first; [| |done].
    - intros k l0 x Hin Hx [Hidx _].
      rewrite Forall_forall in Hn1. specialize (Hn1 _ Hin). simpl in Hn1.
      apply list_elem_of_lookup in Hx as [j Hj]. rewrite (Hn1 j x Hj), Hid in Hidx.
      apply slot_name_inj in Hidx as [-> _].
      apply Hk. apply list_elem_of_fmap. by exists (vt, l0).
    - intros x Hx [Hidx _].
      apply list_elem_of_lookup in Hx as [j Hj].
      pose proof (lookup_lt_Some _ _ _ Hj) as Hlt. rewrite length_take in Hlt.
      rewrite lookup_take_lt in Hj by lia.
      rewrite (Hnl j x Hj), Hid in Hidx. apply slot_name_inj in Hidx as [_ Hij]. lia. }
  rewrite remove_vehicle_enter, Hrm by done.
  f_equal. f_equal. rewrite Hd. by rewrite dict_alter_split.
Qed.

(** Behind a lock that its holder can take again, parking and releasing
    cancel on the pool: when [park_vehicle] returns a slot, releasing that
    slot right away returns the vehicle and puts slots, capacities and lock
    back exactly as they were before the vehicle was parked. *)
Lemma park_then_remove_restores l slot_config h s v now r s1 :
  reachable (manager_with l slot_config h) s →
  park_vehicle v now s = Returned (Some r) s1 →
  ∃ sl s2,
    read_slot r s1 = Some sl ∧
    remove_vehicle (slot_id sl) s1 = Returned (Some v) s2 ∧
    slots s2 = slots s ∧ total_slots s2 = total_slots s ∧ lock s2 = lock s ∧
    heap s2 = alter (set_parking_slot_id (Some (slot_id sl))) v (heap s).
Proof.
  intros Hreach Hpark.
  pose proof (reachable_wf _ _ (manager_with_wf l slot_config h) Hreach) as Hwf.
  destruct (heap s !! v) as [veh|] eqn:Hv.
  2:{ destruct (decide (may_enter (lock s))).
      - by rewrite park_vehicle_bad_reference in Hpark.
      - by rewrite park_vehicle_no_entry in Hpark. }
  destruct (reentrant (lock s)) eqn:Hr.
  2:{ by rewrite (park_vehicle_blocks _ _ _ veh) in Hpark. }
  rewrite (park_vehicle_reentrant _ _ _ veh) in Hpark by done.
  destruct (first_available _ _) as [i|] eqn:Hf; [|done].
  destruct (first_available_slots_get _ _ _ Hf) as (lst & sl & Hl & Hi & Hs).
  destruct (dict_get _ (total_slots s)) as [total|]; [|done].
  case_bool_decide; [done|]. simplify_eq.
  set (vt := vehicle_type veh) in *.
  assert (vacate (occupy v now sl) = sl) as Hback.
  { destruct Hwf as [Hok _ _ _]. unfold pool_ok in Hok. rewrite Forall_forall in Hok.
    specialize (Hok _ (dict_get_elem_of _ _ _ Hl)). simpl in Hok.
    rewrite Forall_forall in Hok.
    destruct (Hok sl (list_elem_of_lookup_2 _ _ _ Hi)) as [Hveh Hres].
    destruct sl as [sid svt st ov nx pv rt]. simpl in *. subst st.
    assert (ov = None) as ->.
    { destruct ov; [|done]. by assert (AVAILABLE = OCCUPIED) by (by apply Hveh). }
    assert (rt = None) as ->.
    { destruct rt; [|done]. by assert (AVAILABLE = OCCUPIED) by (by apply Hres). }
    reflexivity. }
  assert (parked (vt, i) v now s =
          set_heap (alter (set_parking_slot_id (Some (slot_id sl))) v (heap s))
            (set_slots (dict_alter (alter (occupy v now) i) vt (slots s)) s)) as Hparked.
  { unfold parked, read_slot. cbn [fst snd]. rewrite Hl. simpl. by rewrite Hi. }
  rewrite Hparked.
  set (s1 := set_heap _ _).
  assert (dict_get vt (slots s1) = Some (alter (occupy v now) i lst)) as Hl1.
  { unfold s1. simpl. by rewrite dict_get_alter, decide_True, Hl. }
  assert (alter (occupy v now) i lst !! i = Some (occupy v now sl)) as Hi1.
  { by rewrite list_lookup_alter_eq, Hi. }
  exists (occupy v now sl). eexists.
  split. { unfold read_slot. cbn [fst snd]. rewrite Hl1. simpl. done. }
  split.
  { apply (remove_vehicle_by_name_slots s1 vt i (alter (occupy v now) i lst)
             (occupy v now sl)); try done.
    - unfold s1. simpl. eapply pool_step_named; [|apply (wf_named _ Hwf)].
      apply pool_step_alter. intros l0. apply slot_steps_alter. intros x. right; left; eauto.
    - by right. }
  simpl. split; [|done].
  rewrite dict_alter_compose.
  apply (dict_alter_fixed _ _ lst); [done|]. simpl.
  rewrite list_alter_alter_eq. by apply (alter_fixed _ _ _ sl).
Qed.

(** ** The fee over time *)

(** X23. The fee is never below the charge of one hour, and it never goes
    down when the clock goes on. *)
Theorem get_parking_fee_monotone now now' veh :
  (now <= now')%Q →
  (5 <= get_parking_fee now veh)%Q ∧
  (get_parking_fee now veh <= get_parking_fee now' veh)%Q.
Proof.
  intros Hle. split; [apply get_parking_fee_at_least|].
  rewrite !get_parking_fee_spec. unfold compute_fee_spec.
  apply Q.max_le_compat_l.
  unfold Qdiv. apply Qmult_le_compat_r; [|done].
  apply Qmult_le_l; [done|]. lra.
Qed.

Lemma get_parking_fee_monotone_witness :
  (5 <= get_parking_fee 7200 car_A)%Q ∧
  (get_parking_fee 7200 car_A <= get_parking_fee 10800 car_A)%Q.
Proof. apply (get_parking_fee_monotone 7200 10800 car_A). done. Defined.
